(** * graph-color-number: the parallel branch-and-bound core

    A shallow embedding of [src/common.hpp] (the [Branch] record, its
    wire format and its special member functions) and of
    [src/branch_n_bound/branch_n_bound_par.cpp] (the four thread roles
    of [BranchNBoundPar] and [BalancedBranchNBoundPar]).

    Conventions.
    - A C++ [int] is a [Z] in [-2^31, 2^31); an [unsigned short] is a [Z]
      in [0, 2^16).  Conversions that wrap are written out.
    - A [std::vector<char>] and a [std::string] are [list byte].
    - Undefined behaviour (reading past a buffer, dereferencing a null
      [GraphPtr], indexing a vector out of range) is [None].
    - A thread body is a function on the state of its process; what it
      receives from MPI during one pass is an explicit argument and what
      it posts is appended to a list of events. *)

From Stdlib Require Import ZArith Lia Bool.
From Stdlib.Strings Require Import Byte.
From stdpp Require Import base option list gmap.

Local Open Scope Z_scope.

(* ================================================================== *)
(** ** Machine integers and their object representation *)
(* ================================================================== *)

Module Wire.

Definition byte_of_Z (z : Z) : byte :=
  default x00 (Byte.of_N (Z.to_N (z mod 256))).

Definition Z_of_byte (b : byte) : Z := Z.of_N (Byte.to_N b).

(** [memcpy(ptr, &x, n)] on a little-endian machine: the [n] low bytes
    of [x], least significant first.  Flooring division makes this the
    two's complement representation for negative [x]. *)
Fixpoint le_bytes (n : nat) (z : Z) : list byte :=
  match n with
  | O => []
  | S n' => byte_of_Z z :: le_bytes n' (z / 256)
  end.

(** The unsigned value a run of little-endian bytes stands for. *)
Fixpoint le_value (bs : list byte) : Z :=
  match bs with
  | [] => 0
  | b :: rest => Z_of_byte b + 256 * le_value rest
  end.

(** [memcpy(&x, ptr, 4)] into an [int]. *)
Definition to_int (bs : list byte) : Z :=
  let v := le_value bs in
  if v <? 2 ^ 31 then v else v - 2 ^ 32.

(** [memcpy(&x, ptr, 2)] into an [unsigned short]. *)
Definition to_ushort (bs : list byte) : Z := le_value bs.

Definition is_int (z : Z) : Prop := - 2 ^ 31 <= z < 2 ^ 31.
Definition is_ushort (z : Z) : Prop := 0 <= z < 2 ^ 16.

(** Implicit conversion to [unsigned short]. *)
Definition cast_ushort (z : Z) : Z := z mod 2 ^ 16.

Definition USHRT_MAX : Z := 65535.

End Wire.

(* ================================================================== *)
(** ** common.hpp: Branch *)
(* ================================================================== *)

(** [Graph::GraphHistory] is declared in graph.hpp; the record below
    takes its type and its two wire functions as an interface. *)
Class HistoryCodec (GraphHistory : Type) := {
  Serialize : GraphHistory -> list byte;
  Deserialize : list byte -> GraphHistory
}.

Module Common.
Section WithHistory.

Context {GraphHistory : Type} `{HistoryCodec GraphHistory}.

Record Branch := mkBranch {
  history : GraphHistory;
  lb : Z;
  ub : Z;
  depth : Z
}.

(** The field types of the struct. *)
Definition well_typed (b : Branch) : Prop :=
  Wire.is_int (lb b) /\ Wire.is_ushort (ub b) /\ Wire.is_int (depth b).

(** [bool operator<(const Branch& other) const] *)
Definition lt (a b : Branch) : bool := depth a <? depth b.

(** [std::vector<char> serialize() const] *)
Definition serialize (b : Branch) : list byte :=
  let historyData := Serialize (history b) in
  Wire.le_bytes 4 (lb b) ++ Wire.le_bytes 2 (ub b)
    ++ Wire.le_bytes 4 (depth b) ++ historyData.

(** [static Branch deserialize(const std::vector<char>& buffer)].
    The three [memcpy] read [sizeof(int) + sizeof(unsigned short) +
    sizeof(int) = 10] bytes from [buffer.data()], and the history
    string starts at [buffer.begin() + 10]: a shorter buffer is read
    out of bounds. *)
Definition deserialize (buffer : list byte) : option Branch :=
  if (length buffer <? 10)%nat then None
  else
    let b_lb := Wire.to_int (take 4 buffer) in
    let b_ub := Wire.to_ushort (take 2 (drop 4 buffer)) in
    let b_depth := Wire.to_int (take 4 (drop 6 buffer)) in
    let historyData := drop 10 buffer in
    Some {| history := Deserialize historyData;
            lb := b_lb; ub := b_ub; depth := b_depth |}.

(** *** Special member functions

    A constructor is a function from the argument object to the pair
    (object constructed, argument afterwards).  Both constructors
    initialise [history] from the expression [b.history], which is an
    lvalue also inside [Branch(Branch&& b)], so both run the copy
    constructor of [GraphHistory]. *)

Definition copy_construct (b : Branch) : Branch * Branch :=
  ({| history := history b; lb := lb b; ub := ub b; depth := depth b |}, b).

Definition move_construct (b : Branch) : Branch * Branch :=
  ({| history := history b; lb := lb b; ub := ub b; depth := depth b |}, b).

(** Objects live in a store; an assignment operator gets the addresses
    of [*this] and of [other] and runs its four member assignments in
    order, each reading [other] from the store as it then is. *)
Abbreviation addr := positive (only parsing).
Abbreviation store := (gmap positive Branch) (only parsing).

Definition set_history (h : GraphHistory) (b : Branch) : Branch :=
  {| history := h; lb := lb b; ub := ub b; depth := depth b |}.
Definition set_lb (z : Z) (b : Branch) : Branch :=
  {| history := history b; lb := z; ub := ub b; depth := depth b |}.
Definition set_ub (z : Z) (b : Branch) : Branch :=
  {| history := history b; lb := lb b; ub := z; depth := depth b |}.
Definition set_depth (z : Z) (b : Branch) : Branch :=
  {| history := history b; lb := lb b; ub := ub b; depth := z |}.

(** [this->f = other.f] for one member. *)
Definition assign_member {A : Type} (get : Branch -> A)
    (set : A -> Branch -> Branch) (this other : addr) (s : store)
    : option store :=
  o ← s !! other;
  t ← s !! this;
  Some (<[this := set (get o) t]> s).

Definition assign_members (this other : addr) (s : store) : option store :=
  s1 ← assign_member history set_history this other s;
  s2 ← assign_member lb set_lb this other s1;
  s3 ← assign_member ub set_ub this other s2;
  assign_member depth set_depth this other s3.

(** [Branch& operator=(const Branch& other)] *)
Definition copy_assign (this other : addr) (s : store) : option store :=
  if decide (this ≠ other) then assign_members this other s
  else _ ← s !! this; Some s.

(** [Branch& operator=(Branch&& other) noexcept] *)
Definition move_assign (this other : addr) (s : store) : option store :=
  if decide (this ≠ other) then assign_members this other s
  else _ ← s !! this; Some s.

End WithHistory.
Arguments Branch GraphHistory : clear implicits.
Abbreviation addr := positive (only parsing).
Abbreviation store GraphHistory := (gmap positive (Branch GraphHistory))
  (only parsing).
End Common.

(* ================================================================== *)
(** ** branch_n_bound_par.cpp: collaborators *)
(* ================================================================== *)

(** The graph class (graph.hpp) and the three strategies are used
    through their interfaces only.  [Clone] returns a deep copy and
    [std::move] transfers ownership; on values both are the identity and
    are not written.  [Color] colours its argument in place and writes
    the number of colours through its second parameter. *)
Class GraphOps (Graph : Type) := {
  AddEdge : Z -> Z -> Graph -> Graph;
  MergeVertices : Z -> Z -> Graph -> Graph;
  GetVertices : Graph -> list Z;
  GetFullColoring : Graph -> list Z;
  GetMergedVertices : Graph -> Z -> list Z;
  GetNumVertices : Graph -> N;
  SetFullColoring : list Z -> Graph -> Graph
}.

Class Strategies (Graph : Type) := {
  FindClique : Graph -> Z;
  Color : Graph -> Graph * Z;
  ChooseVertices : Graph -> Z * Z
}.

(** Message tags. *)
Definition TAG_WORK_REQUEST : Z := 1.
Definition TAG_WORK_RESPONSE : Z := 2.
Definition TAG_SOLUTION_FOUND : Z := 4.
Definition TAG_IDLE : Z := 5.
Definition TAG_WORK_STEALING : Z := 6.
Definition TAG_TIMEOUT_SOLUTION : Z := 7.

Inductive Payload :=
| P_empty
| P_int (v : Z)
| P_ushort (v : Z)
| P_bytes (buffer : list byte).

(** What a thread does on the communicator, in program order. *)
Inductive Event :=
| Send (dest tag : Z) (data : Payload)
| Recv (source tag : Z) (data : Payload)
| CancelSend (dest tag : Z)
| CancelRecv (source tag : Z).

Inductive Flow := Continue | Break.

#[global] Instance byte_eq_decision : EqDecision byte := Byte.byte_eq_dec.

#[global] Instance Payload_eq_decision : EqDecision Payload.
Proof. solve_decision. Defined.

#[global] Instance Event_eq_decision : EqDecision Event.
Proof. solve_decision. Defined.

(** [std::vector] element access by an [int] index. *)
Definition vec_get {A : Type} (v : list A) (i : Z) : option A :=
  if i <? 0 then None else v !! Z.to_nat i.

Definition vec_set {A : Type} (v : list A) (i : Z) (x : A) : option (list A) :=
  if (i <? 0) || (Z.of_nat (length v) <=? i) then None
  else Some (<[Z.to_nat i := x]> v).

(** A range-based [for] whose body may be undefined. *)
Fixpoint for_each {A S : Type} (body : S -> A -> option S) (l : list A) (s : S)
    : option S :=
  match l with
  | [] => Some s
  | x :: rest => s' ← body s x; for_each body rest s'
  end.

(** [*std::min_element(first, last)] *)
Fixpoint min_element (l : list Z) : option Z :=
  match l with
  | [] => None
  | x :: rest =>
      match min_element rest with
      | None => Some x
      | Some m => if m <? x then Some m else Some x
      end
  end.

(** The ranks [1 .. p-1] in the order [for (int i = 1; i < p; i++)]
    visits them. *)
Definition worker_ranks (p : Z) : list Z :=
  map Z.of_nat (seq 1 (Z.to_nat (p - 1))).

Module Solver.
Section WithGraph.

Context {Graph : Type} {ops : GraphOps Graph} {strategies : Strategies Graph}.

(** [using GraphPtr = std::unique_ptr<Graph>]; [None] is the null
    pointer. *)
Definition GraphPtr : Type := option Graph.

Context {codec : HistoryCodec GraphPtr}.

(** branch_n_bound_par.cpp reaches the graph of a branch through a
    member [g] of type [GraphPtr]; common.hpp carries the same payload
    as the member it serialises.  The embedding keeps one record and
    reads that member as [g]. *)
Definition Branch : Type := Common.Branch GraphPtr.
Definition g (b : Branch) : GraphPtr := Common.history b.
Definition mkBranch (graph : GraphPtr) (lower upper dp : Z) : Branch :=
  Common.mkBranch graph lower upper dp.

(** [Branch()] and a default-initialised [Branch]: no graph.  The
    integer members of a default-initialised branch are never read
    before they are assigned. *)
Definition Branch_empty : Branch := mkBranch None 0 0 0.

(** *** BranchQueue: [std::priority_queue<Branch>]

    The heap is a list; [pop_top] splits off an element that no other
    is greater than under [operator<] (the element [top()] returns and
    [pop()] removes).  Which of several branches of equal depth comes
    first is left to the heap algorithm in C++; here it is the
    earliest pushed. *)
Definition BranchQueue : Type := list Branch.

Definition push (b : Branch) (q : BranchQueue) : BranchQueue := b :: q.

Fixpoint pop_top (q : BranchQueue) : option (Branch * BranchQueue) :=
  match q with
  | [] => None
  | b :: rest =>
      match pop_top rest with
      | None => Some (b, [])
      | Some (m, rest') =>
          if Common.lt m b then Some (b, rest) else Some (m, b :: rest')
      end
  end.

(** *** The state of one process

    [queue], [_best_ub], [_current_best], [terminate_flag] and the
    graph passed to [Solve] are shared by its four threads;
    [optimum_time] is the out-parameter of [Solve]; [trace] collects
    the MPI calls of the process. *)
Record Proc := mkProc {
  queue : BranchQueue;
  best_ub : Z;
  current_best : Branch;
  terminate_flag : bool;
  graph_to_color : Graph;
  optimum_time : Z;
  trace : list Event
}.

Definition set_queue (q : BranchQueue) (s : Proc) : Proc :=
  mkProc q (best_ub s) (current_best s) (terminate_flag s)
         (graph_to_color s) (optimum_time s) (trace s).
Definition store_best_ub (v : Z) (s : Proc) : Proc :=
  mkProc (queue s) v (current_best s) (terminate_flag s)
         (graph_to_color s) (optimum_time s) (trace s).
Definition set_current_best (b : Branch) (s : Proc) : Proc :=
  mkProc (queue s) (best_ub s) b (terminate_flag s)
         (graph_to_color s) (optimum_time s) (trace s).
Definition store_terminate_flag (f : bool) (s : Proc) : Proc :=
  mkProc (queue s) (best_ub s) (current_best s) f
         (graph_to_color s) (optimum_time s) (trace s).
Definition set_graph (gr : Graph) (s : Proc) : Proc :=
  mkProc (queue s) (best_ub s) (current_best s) (terminate_flag s)
         gr (optimum_time s) (trace s).
Definition set_optimum_time (t : Z) (s : Proc) : Proc :=
  mkProc (queue s) (best_ub s) (current_best s) (terminate_flag s)
         (graph_to_color s) t (trace s).
Definition emit (evs : list Event) (s : Proc) : Proc :=
  mkProc (queue s) (best_ub s) (current_best s) (terminate_flag s)
         (graph_to_color s) (optimum_time s) (trace s ++ evs).

(** [void UpdateCurrentBest(int depth, int lb, unsigned short ub,
    GraphPtr graph)] *)
Definition UpdateCurrentBest (dp lower upper : Z) (graph : GraphPtr)
    (s : Proc) : Proc :=
  set_current_best (mkBranch graph lower upper dp) s.

(** [void ColorInitialGraph(Graph &graph_to_color, const Branch
    &optimal_branch)] *)
Definition ColorInitialGraph (target : Graph) (optimal_branch : Branch)
    : option Graph :=
  G ← g optimal_branch;
  let vertices := GetVertices G in
  let optimal_full_coloring := GetFullColoring G in
  let full_coloring :=
    replicate (N.to_nat (GetNumVertices target) + 1) 0 in
  colored ← for_each (fun fc vertex =>
      c ← vec_get optimal_full_coloring vertex;
      fc1 ← vec_set fc vertex c;
      for_each (fun fc' merged =>
          cv ← vec_get fc' vertex;
          vec_set fc' merged cv)
        (GetMergedVertices G vertex) fc1)
    vertices full_coloring;
  Some (SetFullColoring colored target).

(** [void sendBranch(const Branch& b, int dest, int tag, MPI_Comm)].
    Both sends are posted; the polling loop runs while [terminate_flag]
    is down, and a raised flag cancels both requests. *)
Definition sendBranch (b : Branch) (dest tag : Z) (s : Proc) : Proc :=
  let buffer := Common.serialize b in
  let size := Z.of_nat (length buffer) in
  let s1 := emit [Send dest tag (P_int size);
                  Send dest tag (P_bytes buffer)] s in
  if terminate_flag s then emit [CancelSend dest tag; CancelSend dest tag] s1
  else s1.

(** The two receives of a [recvBranch] that completes: the size, then
    the bytes. *)
Definition branch_receipt (source tag : Z) (buffer : list byte) : list Event :=
  [Recv source tag (P_int (Z.of_nat (length buffer)));
   Recv source tag (P_bytes buffer)].

(** [Branch recvBranch(int source, int tag, MPI_Comm)].  The polling
    loops run while [terminate_flag] is down: with the flag already up
    neither receive is tested, the request is cancelled and [Branch()]
    is returned, whatever has been sent.  Otherwise [arrival] is the
    payload that completes the two receives, or [None] when
    [terminate_flag] is raised first: the function then cancels and
    returns [Branch()] as well. *)
Definition recvBranch (source tag : Z) (arrival : option (list byte))
    (s : Proc) : option (Branch * Proc) :=
  if terminate_flag s then
    Some (Branch_empty, emit [CancelRecv source tag] s)
  else
    match arrival with
    | None =>
        Some (Branch_empty,
              emit [CancelRecv source tag] (store_terminate_flag true s))
    | Some buffer =>
        b ← Common.deserialize buffer;
        Some (b, emit (branch_receipt source tag buffer) s)
    end.

(** *** T2: the employer *)

(** The body of [if (request_signal)] in [thread_2_employer], run
    under [queue_mutex]; [destination_rank] is [status.MPI_SOURCE].
    (The two classes have the same text.) *)
Definition employer_answer (destination_rank : Z) (s : Proc) : Proc :=
  if (1 <? length (queue s))%nat then
    match pop_top (queue s) with
    | Some (branch, rest) =>
        let s1 := set_queue rest s in
        let s2 := emit [Send destination_rank TAG_WORK_RESPONSE (P_int 1)] s1 in
        sendBranch branch destination_rank TAG_WORK_STEALING s2
    | None => s
    end
  else emit [Send destination_rank TAG_WORK_RESPONSE (P_int 0)] s.

(** One pass of [while (!terminate_flag)] in [thread_2_employer];
    [probe] is the source [MPI_Iprobe] reports, if any.  (The request
    is probed and answered; the thread posts no receive for it.) *)
Definition employer_iteration (probe : option Z) (s : Proc) : Proc :=
  match probe with
  | Some destination_rank => employer_answer destination_rank s
  | None => s
  end.

(** *** T1: the solution gatherer *)

(** One gathering of [thread_1_solution_gatherer]: [_best_ub] is
    loaded into [local_best_ub], the all-gather fills [all_best_ub]
    (slot [my_rank] with the value loaded, the others with
    [contributions]), and the minimum is stored.  [meanwhile] is what
    the other threads of the process do to its state while the
    collective is in flight. *)
Definition gather_round (my_rank : Z) (contributions : list Z)
    (meanwhile : Proc -> Proc) (s : Proc) : option Proc :=
  let local_best_ub := best_ub s in
  let all_best_ub := <[Z.to_nat my_rank := local_best_ub]> contributions in
  let s' := meanwhile s in
  m ← min_element all_best_ub;
  Some (store_best_ub m s').

(** *** The steal client *)

(** State local to thread 3: [current], [first_iteration] (STANDARD
    only) and the number of calls made to [rand()]. *)
Record Worker := mkWorker {
  current : Branch;
  first_iteration : bool;
  rand_calls : nat
}.

Definition set_current (b : Branch) (w : Worker) : Worker :=
  mkWorker b (first_iteration w) (rand_calls w).
Definition set_first_iteration (f : bool) (w : Worker) : Worker :=
  mkWorker (current w) f (rand_calls w).
Definition set_rand_calls (n : nat) (w : Worker) : Worker :=
  mkWorker (current w) (first_iteration w) n.

(** [while (target_worker == my_rank) target_worker = (rand() % p);]
    [rand k] is the value of the [k]-th call of [rand()]; the loop has
    no other exit, so it runs on [fuel]. *)
Fixpoint choose_target (fuel : nat) (rand : nat -> Z) (my_rank p : Z)
    (target_worker : Z) (calls : nat) : option (Z * nat) :=
  if target_worker =? my_rank then
    match fuel with
    | O => None
    | S fuel' =>
        choose_target fuel' rand my_rank p (Z.rem (rand calls) p) (S calls)
    end
  else Some (target_worker, calls).

(** What the victim's employer answers. *)
Inductive Reply :=
| Terminated
  (** [terminate_flag] is raised before the response arrives *)
| Response (response : Z) (arrival : option (list byte)).
  (** the int received and, for [recvBranch], the buffer (or [None]
      when [terminate_flag] is raised first) *)

(** [bool request_work(int my_rank, int p, BranchQueue& queue,
    std::mutex& queue_mutex, Branch& current)] *)
Definition request_work (fuel : nat) (rand : nat -> Z) (my_rank p : Z)
    (reply : Reply) (w : Worker) (s : Proc)
    : option (bool * Worker * Proc) :=
  '(target_worker, calls) ←
    choose_target fuel rand my_rank p my_rank (rand_calls w);
  let w1 := set_rand_calls calls w in
  let s1 := emit [Send target_worker TAG_WORK_REQUEST P_empty] s in
  match reply with
  | Terminated =>
      Some (false, w1,
            emit [CancelRecv target_worker TAG_WORK_RESPONSE]
                 (store_terminate_flag true s1))
  | Response response arrival =>
      let s2 :=
        emit [Recv target_worker TAG_WORK_RESPONSE (P_int response)] s1 in
      if response =? 1 then
        '(b, s3) ← recvBranch target_worker TAG_WORK_STEALING arrival s2;
        Some (true, set_current b w1, set_queue (push b (queue s3)) s3)
      else Some (false, w1, s2)
  end.

(** [while (!terminate_flag.load() && !request_work(...))]; one reply
    per attempt, and no result while the replies run out. *)
Fixpoint steal_loop (fuel : nat) (rand : nat -> Z) (my_rank p : Z)
    (replies : list Reply) (w : Worker) (s : Proc)
    : option (Worker * Proc) :=
  if terminate_flag s then Some (w, s)
  else
    match replies with
    | [] => None
    | r :: rest =>
        '(ok, w', s') ← request_work fuel rand my_rank p r w s;
        if ok : bool then Some (w', s')
        else steal_loop fuel rand my_rank p rest w' s'
    end.

(** The body of [if (!has_work)] in both [Solve]. *)
Definition idle_path (fuel : nat) (rand : nat -> Z) (my_rank p : Z)
    (replies : list Reply) (w : Worker) (s : Proc)
    : option (Flow * Worker * Proc) :=
  let s1 := emit [Send 0 TAG_IDLE (P_int 1)] s in
  '(w', s2) ← steal_loop fuel rand my_rank p replies w s1;
  if terminate_flag s2 then Some (Break, w', s2)
  else Some (Continue, w', emit [Send 0 TAG_IDLE (P_int 0)] s2).

(** *** T3: the search loop *)

(** [auto current_G = std::move(current.g)] leaves [current] without
    its graph. *)
Definition moved_out (b : Branch) : Branch :=
  mkBranch None (Common.lb b) (Common.ub b) (Common.depth b).

(** [if (current_ub == expected_chi) { ... }] up to, and without, the
    jump that ends the block.  [current.g] is given back before
    [sendBranch]. *)
Definition declare_solution (top : Branch) (s : Proc) : Proc :=
  let current_ub := Common.ub top in
  let s1 := store_best_ub current_ub s in
  let s2 := emit [Send 0 TAG_SOLUTION_FOUND (P_ushort current_ub)] s1 in
  sendBranch top 0 TAG_SOLUTION_FOUND s2.

(** [if (u == -1 || v == -1) { ... continue; }] *)
Definition complete_graph_case (top : Branch) (G : Graph) (s : Proc) : Proc :=
  if Z.of_N (GetNumVertices G) <? best_ub s then
    let s1 := store_best_ub (Wire.cast_ushort (Z.of_N (GetNumVertices G))) s in
    UpdateCurrentBest (Common.depth top) (Common.lb top) (Common.ub top)
                      (Some G) s1
  else s.


(** The update of [_best_ub] and [_current_best] from the two
    children, then the two pushes. *)
Definition push_two_children (top : Branch) (G1 : Graph) (lb1 ub1 : Z)
    (G2 : Graph) (lb2 ub2 : Z) (s : Proc) : Proc :=
  let previous_best_ub := best_ub s in
  let s1 :=
    if (ub1 <? previous_best_ub) && (ub1 <=? ub2) then
      UpdateCurrentBest (Common.depth top) lb1 ub1 (Some G1)
                        (store_best_ub ub1 s)
    else if ub2 <? previous_best_ub then
      UpdateCurrentBest (Common.depth top) lb2 ub2 (Some G2)
                        (store_best_ub ub2 s)
    else s in
  let s2 :=
    set_queue (push (mkBranch (Some G1) lb1 ub1 (Common.depth top + 1))
                    (queue s1)) s1 in
  set_queue (push (mkBranch (Some G2) lb2 ub2 (Common.depth top + 1))
                  (queue s2)) s2.

(** One pass of [while (!terminate_flag.load())] in
    [BranchNBoundPar::Solve] (STANDARD).  [lb1] is declared
    [unsigned short] at function scope; [lb2] is an [int] redeclared in
    the blocks that use it. *)
Definition standard_iteration (fuel : nat) (rand : nat -> Z)
    (my_rank p expected_chi : Z) (replies : list Reply)
    (w : Worker) (s : Proc) : option (Flow * Worker * Proc) :=
  match pop_top (queue s) with
  | None => idle_path fuel rand my_rank p replies w s
  | Some (top, rest) =>
      let s := set_queue rest s in
      let current_G := g top in
      let current_lb := Common.lb top in
      let current_ub := Common.ub top in
      if current_ub =? expected_chi then
        Some (Break, set_current top w, declare_solution top s)
      else
        let w := set_current (moved_out top) w in
        if current_lb =? current_ub then
          if first_iteration w then
            G ← current_G;
            let s1 := store_best_ub current_ub s in
            let s2 := UpdateCurrentBest (Common.depth top) (Common.lb top)
                        (Common.ub top) (Some G) s1 in
            Some (Break, w,
                  emit [Send 0 TAG_SOLUTION_FOUND (P_ushort current_ub)] s2)
          else if current_ub <? best_ub s then
            G ← current_G;
            Some (Continue, w,
                  UpdateCurrentBest (Common.depth top) (Common.lb top)
                    (Common.ub top) (Some G) (store_best_ub current_ub s))
          else Some (Continue, w, s)
        else if current_lb >=? best_ub s then Some (Continue, w, s)
        else
          G ← current_G;
          let '(u, v) := ChooseVertices G in
          if (u =? -1) || (v =? -1) then
            Some (Continue, w, complete_graph_case top G s)
          else
            let s' :=
              if Common.depth top <? my_rank + 1 then
                let G_new := AddEdge u v G in
                let lb2 := FindClique G_new in
                let '(G_new, ub2) := Color G_new in
                set_queue (push (mkBranch (Some G_new) lb2 ub2
                                          (Common.depth top + 1))
                                (queue s)) s
              else if Common.depth top =? my_rank + 1 then
                let G_merge := MergeVertices u v G in
                let lb1 := Wire.cast_ushort (FindClique G_merge) in
                let '(G_merge, ub1) := Color G_merge in
                set_queue (push (mkBranch (Some G_merge) lb1 ub1
                                          (Common.depth top + 1))
                                (queue s)) s
              else
                let G1 := MergeVertices u v G in
                let lb1 := Wire.cast_ushort (FindClique G1) in
                let '(G1, ub1) := Color G1 in
                let G2 := AddEdge u v G in
                let lb2 := FindClique G2 in
                let '(G2, ub2) := Color G2 in
                push_two_children top G1 lb1 ub1 G2 lb2 ub2 s in
            Some (Continue, set_first_iteration false w, s')
  end.

(** One pass of [while (!terminate_flag.load())] in
    [BalancedBranchNBoundPar::Solve] (BALANCED). *)
Definition balanced_iteration (fuel : nat) (rand : nat -> Z)
    (my_rank p expected_chi : Z) (replies : list Reply)
    (w : Worker) (s : Proc) : option (Flow * Worker * Proc) :=
  match pop_top (queue s) with
  | None => idle_path fuel rand my_rank p replies w s
  | Some (top, rest) =>
      let s := set_queue rest s in
      let current_G := g top in
      let current_lb := Common.lb top in
      let current_ub := Common.ub top in
      if current_ub =? expected_chi then
        Some (Continue, set_current top w, declare_solution top s)
      else
        let w := set_current (moved_out top) w in
        if current_lb =? current_ub then
          if current_ub <? best_ub s then
            G ← current_G;
            Some (Continue, w,
                  UpdateCurrentBest (Common.depth top) (Common.lb top)
                    (Common.ub top) (Some G) (store_best_ub current_ub s))
          else Some (Continue, w, s)
        else if current_lb >=? best_ub s then Some (Continue, w, s)
        else
          G ← current_G;
          let '(u, v) := ChooseVertices G in
          if (u =? -1) || (v =? -1) then
            Some (Continue, w, complete_graph_case top G s)
          else
            let G1 := MergeVertices u v G in
            let lb1 := FindClique G1 in
            let '(G1, ub1) := Color G1 in
            let G2 := AddEdge u v G in
            let lb2 := FindClique G2 in
            let '(G2, ub2) := Color G2 in
            Some (Continue, w, push_two_children top G1 lb1 ub1 G2 lb2 ub2 s)
  end.

(** The search loop: passes are made while [terminate_flag] is down
    and no pass has left through [break]; [replies] gives each pass the
    answers its steal attempts get.  The result is the state in which
    thread 3 leaves the loop, and [None] while it has not left it. *)
Fixpoint search_loop
    (iteration : list Reply -> Worker -> Proc -> option (Flow * Worker * Proc))
    (replies : list (list Reply)) (w : Worker) (s : Proc)
    : option (Worker * Proc) :=
  if terminate_flag s then Some (w, s)
  else
    match replies with
    | [] => None
    | r :: rest =>
        '(flow, w', s') ← iteration r w s;
        match flow with
        | Break => Some (w', s')
        | Continue => search_loop iteration rest w' s'
        end
    end.

(** *** T0: the terminator *)

(** The locals of [thread_0_terminator]. *)
Record Terminator := mkTerminator {
  solution_found : Z;
  timeout_signal : Z;
  idle_status : list Z
}.

(** [std::vector<int> idle_status(p, 0)] *)
Definition Terminator_init (p : Z) : Terminator :=
  mkTerminator 0 0 (replicate (Z.to_nat p) 0).

Definition set_solution_found (v : Z) (t : Terminator) : Terminator :=
  mkTerminator v (timeout_signal t) (idle_status t).
Definition set_timeout_signal (v : Z) (t : Terminator) : Terminator :=
  mkTerminator (solution_found t) v (idle_status t).
Definition set_idle_status (l : list Z) (t : Terminator) : Terminator :=
  mkTerminator (solution_found t) (timeout_signal t) l.

(** A message probed on [TAG_SOLUTION_FOUND]: its source, the
    [unsigned short] the worker sent, what the local [solution] holds
    when [_best_ub.store(solution)] runs (the receive has only been
    posted: [0], or the value sent if MPI completed it at once), and
    the buffer of the branch that follows. *)
Record SolutionMsg := mkSolutionMsg {
  sol_source : Z;
  sol_declared : Z;
  sol_at_store : Z;
  sol_buffer : list byte
}.

(** What rank 0 meets during one pass: the clock readings
    [MPI_Wtime() - global_start_time] (at the timeout test and at the
    two assignments of [optimum_time]), the solution message probed (if
    any), the pending [TAG_IDLE] messages (source, value) in the order
    they are drained, and the buffer each rank sends on
    [TAG_TIMEOUT_SOLUTION]. *)
Record Tick := mkTick {
  elapsed : Z;
  solution_msg : option SolutionMsg;
  elapsed_solution : Z;
  idle_msgs : list (Z * Z);
  elapsed_idle : Z;
  timeout_buffers : Z -> list byte
}.

(** [if (flag_solution) { ... }] *)
Definition receive_solution (m : SolutionMsg) (stamp : Z)
    (t : Terminator) (s : Proc) : option (Terminator * Proc) :=
  let s1 := store_best_ub (sol_at_store m) s in
  let s2 := emit [Recv (sol_source m) TAG_SOLUTION_FOUND
                       (P_ushort (sol_declared m))] s1 in
  '(optimal_branch, s3) ←
    recvBranch (sol_source m) TAG_SOLUTION_FOUND (Some (sol_buffer m)) s2;
  colored ← ColorInitialGraph (graph_to_color s3) optimal_branch;
  let s4 := set_graph colored s3 in
  let s5 := store_best_ub (Common.ub optimal_branch) s4 in
  Some (set_solution_found 1 t, set_optimum_time stamp s5).

(** One pass of the loop that drains [TAG_IDLE]:
    [idle_status[status_idle.MPI_SOURCE] = worker_idle_status]. *)
Definition drain_step (st : Terminator * Proc) (msg : Z * Z)
    : option (Terminator * Proc) :=
  let '(t, s) := st in
  let '(source, worker_idle_status) := msg in
  status ← vec_set (idle_status t) source worker_idle_status;
  Some (set_idle_status status t,
        emit [Recv source TAG_IDLE (P_int worker_idle_status)] s).

Definition drain_idle (msgs : list (Z * Z)) (t : Terminator) (s : Proc)
    : option (Terminator * Proc) :=
  for_each drain_step msgs (t, s).

(** [std::all_of(idle_status.begin(), idle_status.end(),
    [](int status) { return status == 1; })] *)
Definition all_idle (t : Terminator) : bool :=
  forallb (fun status => status =? 1) (idle_status t).

(** [if (my_rank == 0) { ... }]: the part of a pass only rank 0 runs. *)
Definition coordinator_listen (timeout_seconds : Z) (tk : Tick)
    (t : Terminator) (s : Proc) : option (Terminator * Proc) :=
  let t1 :=
    if elapsed tk >=? timeout_seconds then set_timeout_signal 1 t else t in
  '(t2, s2) ←
    match solution_msg tk with
    | Some m => receive_solution m (elapsed_solution tk) t1 s
    | None => Some (t1, s)
    end;
  '(t3, s3) ← drain_idle (idle_msgs tk) t2 s2;
  if all_idle t3 then
    Some (set_solution_found 1 t3, set_optimum_time (elapsed_idle tk) s3)
  else Some (t3, s3).

(** The body of [for (int i = 1; i < p; i++)] in the timeout branch
    on rank 0, on its locals [found] and [best_branch]. *)
Definition collect_step (buffers : Z -> list byte)
    (st : bool * Branch * Proc) (i : Z) : option (bool * Branch * Proc) :=
  let '(found, best_branch, s) := st in
  '(b, s1) ← recvBranch i TAG_TIMEOUT_SOLUTION (Some (buffers i)) s;
  if (negb found || (Common.ub b <? Common.ub best_branch))
     && (Common.ub b <=? best_ub s1)
  then Some (found, b, store_best_ub (Common.ub b) s1)
  else Some (found, best_branch, s1).

(** The loop, from [bool found = false; Branch best_branch;]. *)
Definition collect_timeout (p : Z) (buffers : Z -> list byte) (s : Proc)
    : option (bool * Branch * Proc) :=
  for_each (collect_step buffers) (worker_ranks p) (false, Branch_empty, s).

(** [if (timeout_signal) { ... }] *)
Definition on_timeout (my_rank p : Z) (buffers : Z -> list byte) (s : Proc)
    : option Proc :=
  if my_rank =? 0 then
    '(_, best_branch, s1) ← collect_timeout p buffers s;
    colored ← ColorInitialGraph (graph_to_color s1) best_branch;
    Some (set_graph colored s1)
  else Some (sendBranch (current_best s) 0 TAG_TIMEOUT_SOLUTION s).

(** What follows the two broadcasts. *)
Definition after_broadcast (my_rank p : Z) (buffers : Z -> list byte)
    (t : Terminator) (s : Proc) : option (Flow * Terminator * Proc) :=
  s1 ← (if timeout_signal t =? 0 then Some s
         else on_timeout my_rank p buffers s);
  if (solution_found t =? 0) && (timeout_signal t =? 0)
  then Some (Continue, t, s1)
  else Some (Break, t, store_terminate_flag true s1).

(** One pass of [while (true)] in [thread_0_terminator] on rank 0. *)
Definition coordinator_iteration (p timeout_seconds : Z) (tk : Tick)
    (t : Terminator) (s : Proc) : option (Flow * Terminator * Proc) :=
  '(t1, s1) ← coordinator_listen timeout_seconds tk t s;
  after_broadcast 0 p (timeout_buffers tk) t1 s1.

(** One pass on a rank other than 0: the two [MPI_Bcast] overwrite
    [solution_found] and [timeout_signal] with the values of rank 0. *)
Definition follower_iteration (my_rank p : Z) (bcast_solution_found
    bcast_timeout_signal : Z) (t : Terminator) (s : Proc)
    : option (Flow * Terminator * Proc) :=
  let t1 := set_timeout_signal bcast_timeout_signal
              (set_solution_found bcast_solution_found t) in
  after_broadcast my_rank p (fun _ => []) t1 s.

(** *** Seeding *)

(** Modelled from the spec: the initial value of the member
    [_best_ub], whose declaration (branch_n_bound_par.hpp) is not among
    the sources: "Initialized to 2^16-1". *)
Definition best_ub_initial : Z := Wire.USHRT_MAX.

(** The state [Solve] starts from: an empty queue, [optimum_time =
    -1.0], [terminate_flag] down. *)
Definition Proc_init (graph : Graph) : Proc :=
  mkProc [] best_ub_initial Branch_empty false graph (-1) [].

Definition Worker_init : Worker := mkWorker Branch_empty true O.

(** STANDARD: the statements of thread 3 before its loop. *)
Definition standard_seed (s : Proc) : Proc :=
  let lb := FindClique (graph_to_color s) in
  let '(colored, ub) := Color (graph_to_color s) in
  let s1 := store_best_ub ub (set_graph colored s) in
  let s2 := UpdateCurrentBest 0 lb ub (Some colored) s1 in
  set_queue (push (mkBranch (Some colored) lb ub 1) (queue s2)) s2.

(** BALANCED: [while (a != b) { ... }], which halves the interval of
    ranks [[a, b]] and so makes at most [p] passes. *)
Fixpoint balanced_descent (fuel : nat) (my_rank a b depth : Z) (G : Graph)
    : option (Z * Graph) :=
  if a =? b then Some (depth, G)
  else
    match fuel with
    | O => None
    | S fuel' =>
        let '(u, v) := ChooseVertices G in
        let delta := Z.quot (b + 1 - a) 2 in
        if my_rank >=? a + delta
        then balanced_descent fuel' my_rank (a + delta) b (depth + 1)
                              (MergeVertices u v G)
        else balanced_descent fuel' my_rank a (b - delta) (depth + 1)
                              (AddEdge u v G)
    end.

(** BALANCED: the statements of [Solve] before the parallel region. *)
Definition balanced_seed (my_rank p : Z) (s : Proc) : option Proc :=
  '(depth, G) ←
    balanced_descent (Z.to_nat p) my_rank 0 (p - 1) 1 (graph_to_color s);
  let lb := FindClique G in
  let '(G, ub) := Color G in
  let s1 := UpdateCurrentBest depth lb ub (Some G) s in
  Some (set_queue (push (mkBranch (Some G) lb ub depth) (queue s1)) s1).

End WithGraph.
Arguments GraphPtr Graph : clear implicits.
Arguments Branch Graph : clear implicits.
Arguments BranchQueue Graph : clear implicits.
Arguments Proc Graph : clear implicits.
Arguments Worker Graph : clear implicits.
End Solver.

(* ================================================================== *)
(** ** A small implementation of the collaborators *)
(* ================================================================== *)

(** The solver is generic in the graph and in its three strategies.
    The examples below run it on this implementation: vertices are
    labelled [1 .. tg_size], a merge removes the absorbed vertex and
    remembers where it went, and the full colouring is a vector indexed
    by label. *)
Module Toy.

Record ToyGraph := mkToy {
  tg_size : N;
  tg_vertices : list Z;
  tg_edges : list (Z * Z);
  tg_merged : list (Z * Z);
  tg_coloring : list Z
}.

Definition adjacent (gr : ToyGraph) (u v : Z) : bool :=
  existsb (fun '(a, b) => ((a =? u) && (b =? v)) || ((a =? v) && (b =? u)))
          (tg_edges gr).

Definition rename (v u x : Z) : Z := if x =? v then u else x.

(** [u] absorbs [v]. *)
Definition merge (u v : Z) (gr : ToyGraph) : ToyGraph :=
  mkToy (tg_size gr)
        (filter (fun x => x ≠ v) (tg_vertices gr))
        (filter (fun '(a, b) => a ≠ b)
                (map (fun '(a, b) => (rename v u a, rename v u b))
                     (tg_edges gr)))
        ((v, u) :: map (fun '(w, x) => (w, rename v u x)) (tg_merged gr))
        (tg_coloring gr).

Definition add_edge (u v : Z) (gr : ToyGraph) : ToyGraph :=
  mkToy (tg_size gr) (tg_vertices gr) ((u, v) :: tg_edges gr)
        (tg_merged gr) (tg_coloring gr).

Definition merged_into (gr : ToyGraph) (u : Z) : list Z :=
  map fst (filter (fun '(_, x) => x = u) (tg_merged gr)).

Definition set_coloring (c : list Z) (gr : ToyGraph) : ToyGraph :=
  mkToy (tg_size gr) (tg_vertices gr) (tg_edges gr) (tg_merged gr) c.

#[global] Instance toy_ops : GraphOps ToyGraph := {
  AddEdge := add_edge;
  MergeVertices := merge;
  GetVertices := tg_vertices;
  GetFullColoring := tg_coloring;
  GetMergedVertices := merged_into;
  GetNumVertices := fun gr => N.of_nat (length (tg_vertices gr));
  SetFullColoring := set_coloring
}.

(** Greedy clique: scan the vertices, keep each one adjacent to all
    kept so far. *)
Definition greedy_clique (gr : ToyGraph) : Z :=
  Z.of_nat (length (fold_left (fun clique v =>
      if forallb (adjacent gr v) clique then v :: clique else clique)
    (tg_vertices gr) [])).

Definition blank (gr : ToyGraph) : list Z :=
  replicate (N.to_nat (tg_size gr) + 1) 0.

Definition color_of (coloring : list Z) (v : Z) : Z :=
  default 0 (coloring !! Z.to_nat v).

Fixpoint first_free (fuel : nat) (c : Z) (used : list Z) : Z :=
  match fuel with
  | O => c
  | S fuel' =>
      if existsb (Z.eqb c) used then first_free fuel' (c + 1) used else c
  end.

(** Greedy colouring in vertex order; the bound is the largest colour. *)
Definition greedy_color (gr : ToyGraph) : ToyGraph * Z :=
  let coloring :=
    fold_left (fun col v =>
        let used := map (color_of col)
                        (filter (fun w => adjacent gr v w) (tg_vertices gr)) in
        <[Z.to_nat v := first_free (length (tg_vertices gr)) 1 used]> col)
      (tg_vertices gr) (blank gr) in
  (set_coloring coloring gr, fold_left Z.max coloring 0).

(** The first vertex that has a non-neighbour, with the last of its
    non-neighbours; [(-1, -1)] on a complete graph. *)
Definition choose (gr : ToyGraph) : Z * Z :=
  let candidates :=
    flat_map (fun u =>
        match reverse (filter (fun w => w ≠ u ∧ adjacent gr u w = false)
                              (tg_vertices gr)) with
        | [] => []
        | v :: _ => [(u, v)]
        end)
      (tg_vertices gr) in
  match candidates with
  | [] => (-1, -1)
  | uv :: _ => uv
  end.

Definition greedy : Strategies ToyGraph := {|
  FindClique := greedy_clique;
  Color := greedy_color;
  ChooseVertices := choose
|}.

(** Wire format of a graph: every number in one byte, every list after
    its length. *)
Definition enc_list (l : list Z) : list byte :=
  Wire.byte_of_Z (Z.of_nat (length l)) :: map Wire.byte_of_Z l.

Definition dec_list (bs : list byte) : option (list Z * list byte) :=
  match bs with
  | [] => None
  | n :: rest =>
      let k := Z.to_nat (Wire.Z_of_byte n) in
      if (length rest <? k)%nat then None
      else Some (map Wire.Z_of_byte (take k rest), drop k rest)
  end.

Definition flatten (l : list (Z * Z)) : list Z :=
  flat_map (fun '(a, b) => [a; b]) l.

Fixpoint pair_up (l : list Z) : list (Z * Z) :=
  match l with
  | a :: b :: rest => (a, b) :: pair_up rest
  | _ => []
  end.

Definition enc_graph (gp : option ToyGraph) : list byte :=
  match gp with
  | None => []
  | Some gr =>
      Wire.byte_of_Z (Z.of_N (tg_size gr))
        :: enc_list (tg_vertices gr) ++ enc_list (flatten (tg_edges gr))
        ++ enc_list (flatten (tg_merged gr)) ++ enc_list (tg_coloring gr)
  end.

Definition dec_graph (bs : list byte) : option ToyGraph :=
  match bs with
  | [] => None
  | n :: rest =>
      '(vs, r1) ← dec_list rest;
      '(es, r2) ← dec_list r1;
      '(ms, r3) ← dec_list r2;
      '(cs, _) ← dec_list r3;
      Some (mkToy (Z.to_N (Wire.Z_of_byte n)) vs (pair_up es) (pair_up ms) cs)
  end.

#[global] Instance toy_codec : HistoryCodec (option ToyGraph) := {
  Serialize := enc_graph;
  Deserialize := dec_graph
}.

(** The path 1 - 3 - 4 - 2. *)
Definition path4 : ToyGraph :=
  mkToy 4 [1; 2; 3; 4] [(1, 3); (3, 4); (4, 2)] [] (replicate 5 0).

(** The path 1 - 3 - 2. *)
Definition path3 : ToyGraph :=
  mkToy 3 [1; 2; 3] [(1, 3); (2, 3)] [] (replicate 4 0).

(** A branch over [path3] as the seeding of [Solve] makes it under
    [greedy]: clique bound 2, colouring bound 2, depth 1. *)
Definition sample_branch : Common.Branch (option ToyGraph) :=
  Common.mkBranch (Some (fst (greedy_color path3))) 2 2 1.

(** The same branch before its graph is coloured, with bounds 1 and 3. *)
Definition other_branch : Common.Branch (option ToyGraph) :=
  Common.mkBranch (Some path3) 1 3 1.

(** Two branch objects, at addresses 1 and 2. *)
Definition sample_store : Common.store (option ToyGraph) :=
  <[1%positive := other_branch]> (<[2%positive := sample_branch]> ∅).

(** [rand()] is never reached in the runs below. *)
Definition no_rand : nat -> Z := fun _ => 0.

(** [n] passes of a search loop, whatever the way each pass ends. *)
Fixpoint passes
    (iteration : Solver.Worker ToyGraph -> Solver.Proc ToyGraph ->
                 option (Flow * Solver.Worker ToyGraph * Solver.Proc ToyGraph))
    (n : nat) (w : Solver.Worker ToyGraph) (s : Solver.Proc ToyGraph)
    : option (Solver.Worker ToyGraph * Solver.Proc ToyGraph) :=
  match n with
  | O => Some (w, s)
  | S n' => '(_, w', s') ← iteration w s; passes iteration n' w' s'
  end.

(** A pass of either loop on this implementation, with no reply to a
    steal attempt. *)
Definition standard_pass (strategies : Strategies ToyGraph)
    (my_rank p expected_chi : Z) :=
  Solver.standard_iteration (strategies := strategies)
    O no_rand my_rank p expected_chi [].

Definition balanced_pass (strategies : Strategies ToyGraph)
    (my_rank p expected_chi : Z) :=
  Solver.balanced_iteration (strategies := strategies)
    O no_rand my_rank p expected_chi [].

(** BALANCED on [path4] with one process and [expected_chi = 2], after
    the seeding and the first pass: the two children of the root are
    queued, the merge child on top. *)
Definition balanced_two_children
    : option (Solver.Worker ToyGraph * Solver.Proc ToyGraph) :=
  s ← Solver.balanced_seed (strategies := greedy) 0 1
         (Solver.Proc_init path4);
  passes (balanced_pass greedy 0 1 2) 1 Solver.Worker_init s.

(** STANDARD on [path4], rank 0 of two, [expected_chi = 2]: the state
    after the seeding, and what two passes of thread 3 make of a
    state. *)
Definition standard_seeded : Solver.Proc ToyGraph :=
  Solver.standard_seed (strategies := greedy) (Solver.Proc_init path4).

Definition two_standard_passes (s : Solver.Proc ToyGraph)
    : Solver.Proc ToyGraph :=
  match passes (standard_pass greedy 0 2 2) 2 Solver.Worker_init s with
  | Some (_, s') => s'
  | None => s
  end.

(** [path3] two-coloured the other way round. *)
Definition swapped_branch : Common.Branch (option ToyGraph) :=
  Common.mkBranch (Some (set_coloring [0; 2; 2; 1] path3)) 2 2 1.

(** A process with two branches queued, the second deeper than the
    first, and [_best_ub = 3]. *)
Definition deeper_branch : Common.Branch (option ToyGraph) :=
  Common.mkBranch (Some (fst (greedy_color (merge 1 2 path3)))) 2 2 2.

Definition busy_proc : Solver.Proc ToyGraph :=
  Solver.mkProc [other_branch; deeper_branch] 3 other_branch false
                path3 (-1) [].

(** Rank 0 with nothing queued and [_best_ub = 3]. *)
Definition coordinator_proc : Solver.Proc ToyGraph :=
  Solver.mkProc [] 3 other_branch false path3 (-1) [].

(** What the ranks send on [TAG_TIMEOUT_SOLUTION]: rank 1 its seed with
    [ub = 3], every other rank the swapped two-colouring. *)
Definition timeout_branch (i : Z) : Common.Branch (option ToyGraph) :=
  if i =? 1 then other_branch else swapped_branch.

Definition timeout_mail (i : Z) : list byte :=
  Common.serialize (timeout_branch i).

(** A pass of rank 0 at second 60 that finds the solution message of
    its own search thread (the greedy two-colouring) and no idle
    message; rank 1 then sends the swapped two-colouring. *)
Definition solution_from_0 : Solver.SolutionMsg :=
  Solver.mkSolutionMsg 0 2 2 (Common.serialize sample_branch).

Definition busy_tick : Solver.Tick :=
  Solver.mkTick 60 (Some solution_from_0) 60 [] 60
                (fun _ => Common.serialize swapped_branch).

(** A pass of rank 0 at second 1 in which rank 1 reports idle. *)
Definition idle_tick : Solver.Tick :=
  Solver.mkTick 1 None 1 [(1, 1)] 1 (fun _ => []).

(** A process whose only queued branch has a complete graph, [path3]
    with 2 merged into 1, and bounds 1 and 2 under [_best_ub = 3]. *)
Definition complete_branch : Common.Branch (option ToyGraph) :=
  Common.mkBranch (Some (merge 1 2 path3)) 1 2 2.

Definition complete_proc : Solver.Proc ToyGraph :=
  Solver.mkProc [complete_branch] 3 other_branch false path3 (-1) [].

End Toy.

(* ================================================================== *)
(** ** scripts/run_instance.cpp *)
(* ================================================================== *)

(** The two further members of the graph class that [CheckColoring]
    calls.  [GetNeighbours(vertex, neighbours)] writes into a vector
    the caller owns, so it is a function of what that vector held. *)
Class ColoringView (Graph : Type) := {
  GetColor : Graph -> Z -> Z;
  GetNeighbours : Graph -> Z -> list Z -> list Z
}.

Module RunInstance.
Section WithGraph.

Context {Graph : Type} {ops : GraphOps Graph} {view : ColoringView Graph}.

(** [for ( int neighbour : neighbours ) { if ( graph.GetColor(neighbour)
    == current_color ) return false; }]: [true] when the loop returns
    from [CheckColoring]. *)
Fixpoint neighbour_clash (graph : Graph) (current_color : Z)
    (neighbours : list Z) : bool :=
  match neighbours with
  | [] => false
  | neighbour :: rest =>
      if GetColor graph neighbour =? current_color then true
      else neighbour_clash graph current_color rest
  end.

(** The loop of [CheckColoring] over [graph.GetVertices()];
    [neighbours] is declared before the loop and handed to every call
    of [GetNeighbours]. *)
Fixpoint check_vertices (graph : Graph) (vertices : list Z)
    (neighbours : list Z) : bool :=
  match vertices with
  | [] => true
  | vertex :: rest =>
      let current_color := GetColor graph vertex in
      let neighbours := GetNeighbours graph vertex neighbours in
      if current_color =? 0 then false
      else if neighbour_clash graph current_color neighbours then false
      else check_vertices graph rest neighbours
  end.

(** [bool CheckColoring(const Graph& graph)] *)
Definition CheckColoring (graph : Graph) : bool :=
  check_vertices graph (GetVertices graph) [].

(** [unsigned max_color = 0; for ( int color : colors ) { if ( color >
    max_color ) max_color = color; }] in [main]: the comparison and the
    assignment convert the [int] to [unsigned]. *)
Definition number_of_colors (colors : list Z) : Z :=
  fold_left (fun max_color color =>
               if max_color <? color mod 2 ^ 32 then color mod 2 ^ 32
               else max_color)
            colors 0.

End WithGraph.
End RunInstance.

(** The small implementation, seen through [ColoringView]. *)
#[global] Instance toy_view : ColoringView Toy.ToyGraph := {
  GetColor := fun gr v => Toy.color_of (Toy.tg_coloring gr) v;
  GetNeighbours := fun gr v _ =>
    filter (fun w => Toy.adjacent gr v w) (Toy.tg_vertices gr)
}.

(** Further states of the small implementation. *)
Module ToyRuns.

(** [path3] under its greedy colouring: 1 and 2 in colour 1, 3 in
    colour 2. *)
Definition colored_path3 : Toy.ToyGraph := fst (Toy.greedy_color Toy.path3).

(** Ranks 1 and 2 of a fleet of three at timeout, each with the
    [_current_best] of [Toy.timeout_branch]. *)
Definition fleet (i : Z) : Solver.Proc Toy.ToyGraph :=
  Solver.mkProc [] 3 (Toy.timeout_branch i) false Toy.path3 (-1) [].

(** Rank 0 with [_best_ub = 2], below what any other rank holds. *)
Definition leading_proc : Solver.Proc Toy.ToyGraph :=
  Solver.mkProc [] 2 Toy.sample_branch false Toy.path3 (-1) [].


(** Two children one level below [Toy.deeper_branch]. *)
Definition child_merge : Common.Branch (option Toy.ToyGraph) :=
  Common.mkBranch (Some (Toy.merge 1 3 Toy.path3)) 1 1 3.

Definition child_edge : Common.Branch (option Toy.ToyGraph) :=
  Common.mkBranch (Some (Toy.add_edge 1 2 Toy.path3)) 3 3 3.

(** [rand()] returning 0, 1, 2, ... *)
Definition counting_rand : nat -> Z := Z.of_nat.

(** [path3] in three colours, as a branch with [ub = 3]. *)
Definition three_coloured : Common.Branch (option Toy.ToyGraph) :=
  Common.mkBranch (Some (Toy.set_coloring [0; 1; 2; 3] Toy.path3)) 1 3 1.

(** What a fleet of three sends on [TAG_TIMEOUT_SOLUTION] when rank 1
    holds the swapped two-colouring and rank 2 the three-colouring. *)
Definition late_mail (i : Z) : list byte :=
  Common.serialize (if i =? 1 then Toy.swapped_branch else three_coloured).

(** What rank 1 of two sends when all it holds is the three-colouring. *)
Definition trailing_mail (i : Z) : list byte :=
  Common.serialize three_coloured.

(** The first pass of the timeout loop of rank 0 on [late_mail], as
    what thread 0 does to the process while a gathering of thread 1 is
    in flight. *)
Definition first_receive (s : Solver.Proc Toy.ToyGraph)
    : Solver.Proc Toy.ToyGraph :=
  match Solver.collect_step late_mail
          (false, Solver.Branch_empty, s) 1 with
  | Some (_, _, s') => s'
  | None => s
  end.

End ToyRuns.

(* ================================================================== *)
(** ** Vocabulary of the statements *)
(* ================================================================== *)

(** An event that is not an idle report to rank 0. *)
Definition not_idle_report (e : Event) : Prop :=
  forall v, e <> Send 0 TAG_IDLE (P_int v).

(* ================================================================== *)
(** * Properties *)
(* ================================================================== *)

(** ** The wire format *)

Lemma Z_of_byte_range (b : byte) : 0 <= Wire.Z_of_byte b < 256.
Proof.
  unfold Wire.Z_of_byte. pose proof (Byte.to_N_bounded b). lia.
Qed.

Lemma Z_of_byte_of_Z (z : Z) : Wire.Z_of_byte (Wire.byte_of_Z z) = z mod 256.
Proof.
  unfold Wire.Z_of_byte, Wire.byte_of_Z.
  assert (Hr : 0 <= z mod 256 < 256) by (apply Z.mod_pos_bound; lia).
  destruct (Byte.of_N (Z.to_N (z mod 256))) as [b|] eqn:E.
  - apply Byte.to_of_N in E. simpl. rewrite E. apply Z2N.id. lia.
  - apply Byte.of_N_None_iff in E. lia.
Qed.

Lemma length_le_bytes (n : nat) (z : Z) : length (Wire.le_bytes n z) = n.
Proof.
  revert z. induction n as [|n IH]; intros z; simpl; [reflexivity|].
  now rewrite IH.
Qed.

Lemma le_value_le_bytes (n : nat) (z : Z) :
  Wire.le_value (Wire.le_bytes n z) = z mod 256 ^ Z.of_nat n.
Proof.
  revert z. induction n as [|n IH]; intros z.
  - simpl. now rewrite Z.mod_1_r.
  - cbn [Wire.le_bytes Wire.le_value].
    rewrite Z_of_byte_of_Z, IH, Nat2Z.inj_succ, Z.pow_succ_r by lia.
    rewrite Z.rem_mul_r by lia. reflexivity.
Qed.

Lemma to_int_le_bytes (z : Z) :
  Wire.is_int z -> Wire.to_int (Wire.le_bytes 4 z) = z.
Proof.
  unfold Wire.is_int, Wire.to_int. intros Hz.
  rewrite le_value_le_bytes.
  change (256 ^ Z.of_nat 4) with (2 ^ 32).
  destruct (Z_lt_le_dec z 0) as [Hneg|Hpos].
  - replace (z mod 2 ^ 32) with (z + 2 ^ 32).
    + destruct (Z.ltb_spec (z + 2 ^ 32) (2 ^ 31)); lia.
    + apply Z.mod_unique with (q := -1); lia.
  - rewrite Z.mod_small by lia.
    destruct (Z.ltb_spec z (2 ^ 31)); lia.
Qed.

Lemma to_ushort_le_bytes (z : Z) :
  Wire.is_ushort z -> Wire.to_ushort (Wire.le_bytes 2 z) = z.
Proof.
  unfold Wire.is_ushort, Wire.to_ushort. intros Hz.
  rewrite le_value_le_bytes.
  change (256 ^ Z.of_nat 2) with (2 ^ 16).
  apply Z.mod_small; lia.
Qed.

(** The three fixed-size fields come back out of a buffer that starts
    with them. *)
Lemma header_split (l1 l2 l3 rest : list byte) :
  length l1 = 4%nat -> length l2 = 2%nat -> length l3 = 4%nat ->
  take 4 (l1 ++ l2 ++ l3 ++ rest) = l1
  /\ take 2 (drop 4 (l1 ++ l2 ++ l3 ++ rest)) = l2
  /\ take 4 (drop 6 (l1 ++ l2 ++ l3 ++ rest)) = l3
  /\ drop 10 (l1 ++ l2 ++ l3 ++ rest) = rest.
Proof.
  intros H1 H2 H3.
  destruct l1 as [|a1 [|a2 [|a3 [|a4 [|]]]]]; try discriminate.
  destruct l2 as [|b1 [|b2 [|]]]; try discriminate.
  destruct l3 as [|c1 [|c2 [|c3 [|c4 [|]]]]]; try discriminate.
  cbn [app take drop]. rewrite take_0, drop_0. auto.
Qed.

(** C5.  Deserialising the buffer [serialize] produces gives back the
    branch, field by field, and the buffer is 4 bytes that read as the
    signed [lb], 2 bytes that read as the unsigned [ub], 4 bytes that
    read as the signed [depth], then the serialised history.  The
    history codec is the collaborator's: it is asked to read back what
    it wrote for this history. *)
Theorem serialize_deserialize_roundtrip
    {GraphHistory : Type} `{HistoryCodec GraphHistory}
    (b : Common.Branch GraphHistory) :
  Common.well_typed b ->
  Deserialize (Serialize (Common.history b)) = Common.history b ->
  Common.deserialize (Common.serialize b) = Some b
  /\ exists lb_bytes ub_bytes depth_bytes : list byte,
       Common.serialize b
         = lb_bytes ++ ub_bytes ++ depth_bytes
             ++ Serialize (Common.history b)
       /\ length lb_bytes = 4%nat /\ Wire.to_int lb_bytes = Common.lb b
       /\ length ub_bytes = 2%nat /\ Wire.to_ushort ub_bytes = Common.ub b
       /\ length depth_bytes = 4%nat
       /\ Wire.to_int depth_bytes = Common.depth b.
Proof.
  intros (Hlb & Hub & Hdepth) Hhist.
  pose proof (header_split (Wire.le_bytes 4 (Common.lb b))
                (Wire.le_bytes 2 (Common.ub b))
                (Wire.le_bytes 4 (Common.depth b))
                (Serialize (Common.history b))
                (length_le_bytes _ _) (length_le_bytes _ _)
                (length_le_bytes _ _)) as (T1 & T2 & T3 & T4).
  split.
  - unfold Common.deserialize, Common.serialize.
    destruct (Nat.ltb_spec
                (length (Wire.le_bytes 4 (Common.lb b)
                         ++ Wire.le_bytes 2 (Common.ub b)
                         ++ Wire.le_bytes 4 (Common.depth b)
                         ++ Serialize (Common.history b))) 10) as [Hshort|_].
    + rewrite !length_app, !length_le_bytes in Hshort. lia.
    + rewrite T1, T2, T3, T4, Hhist.
      rewrite !to_int_le_bytes, to_ushort_le_bytes by assumption.
      destruct b; reflexivity.
  - exists (Wire.le_bytes 4 (Common.lb b)), (Wire.le_bytes 2 (Common.ub b)),
      (Wire.le_bytes 4 (Common.depth b)).
    rewrite !length_le_bytes, !to_int_le_bytes, to_ushort_le_bytes
      by assumption.
    unfold Common.serialize. auto 10.
Qed.

Lemma serialize_deserialize_roundtrip_witness :
  Common.well_typed Toy.sample_branch
  /\ Deserialize (Serialize (Common.history Toy.sample_branch))
     = Common.history Toy.sample_branch
  /\ Common.deserialize (Common.serialize Toy.sample_branch)
     = Some Toy.sample_branch.
Proof.
  assert (Hw : Common.well_typed Toy.sample_branch).
  { unfold Common.well_typed, Wire.is_int, Wire.is_ushort. simpl. lia. }
  assert (Hh : Deserialize (Serialize (Common.history Toy.sample_branch))
               = Common.history Toy.sample_branch) by (vm_compute; reflexivity).
  split; [exact Hw|]. split; [exact Hh|].
  exact (proj1 (serialize_deserialize_roundtrip Toy.sample_branch Hw Hh)).
Defined.

(** ** Copying and moving a branch *)

Section BranchObjects.

Context {GraphHistory : Type}.
Implicit Types (b src dst : Common.Branch GraphHistory).
Implicit Types (s : Common.store GraphHistory).

Lemma assign_member_other {A : Type} (get : Common.Branch GraphHistory -> A)
    set this other s src dst :
  this ≠ other -> s !! other = Some src -> s !! this = Some dst ->
  Common.assign_member get set this other s
  = Some (<[this := set (get src) dst]> s).
Proof.
  intros Hne Ho Ht. unfold Common.assign_member.
  rewrite Ho, Ht. reflexivity.
Qed.

Lemma assign_members_other this other s src dst :
  this ≠ other -> s !! other = Some src -> s !! this = Some dst ->
  Common.assign_members this other s = Some (<[this := src]> s).
Proof.
  intros Hne Ho Ht. unfold Common.assign_members.
  rewrite (assign_member_other _ _ this other s src dst) by assumption.
  cbn [mbind option_bind].
  erewrite assign_member_other;
    [ | assumption | (rewrite !lookup_insert_ne by assumption); exact Ho
      | apply lookup_insert_eq ].
  cbn [mbind option_bind].
  erewrite assign_member_other;
    [ | assumption | (rewrite !lookup_insert_ne by assumption); exact Ho
      | apply lookup_insert_eq ].
  cbn [mbind option_bind].
  erewrite assign_member_other;
    [ | assumption | (rewrite !lookup_insert_ne by assumption); exact Ho
      | apply lookup_insert_eq ].
  rewrite !insert_insert_eq. destruct src, dst. reflexivity.
Qed.

(** C10.  Moving a branch is copying it.  The move constructor builds
    an object equal to its argument and leaves the argument as it was;
    move assignment ends, like copy assignment, in the store where
    [*this] holds the four members of [other] and every other object,
    [other] included, is untouched. *)
Theorem move_is_copy this other s src dst :
  s !! this = Some dst -> s !! other = Some src ->
  Common.move_construct src = (src, src)
  /\ Common.move_construct src = Common.copy_construct src
  /\ Common.move_assign this other s = Common.copy_assign this other s
  /\ exists s', Common.move_assign this other s = Some s'
       /\ s' !! this = Some src
       /\ s' !! other = Some src
       /\ forall a, a ≠ this -> s' !! a = s !! a.
Proof.
  intros Ht Ho.
  split; [destruct src; reflexivity|].
  split; [reflexivity|]. split; [reflexivity|].
  unfold Common.move_assign. destruct (decide (this ≠ other)) as [Hne|Heq].
  - exists (<[this := src]> s).
    rewrite (assign_members_other this other s src dst) by assumption.
    split; [reflexivity|]. split; [apply lookup_insert_eq|].
    split; [(rewrite lookup_insert_ne by assumption); exact Ho|].
    intros a Ha. apply lookup_insert_ne. congruence.
  - assert (this = other) as -> by (destruct (decide (this = other)); tauto).
    assert (dst = src) as -> by congruence.
    exists s. split; [rewrite Ht; reflexivity|]. auto.
Qed.

End BranchObjects.

Lemma move_is_copy_witness :
  Toy.sample_store !! 1%positive = Some Toy.other_branch
  /\ Toy.sample_store !! 2%positive = Some Toy.sample_branch
  /\ Common.move_construct Toy.sample_branch
     = (Toy.sample_branch, Toy.sample_branch)
  /\ Common.move_assign 1%positive 2%positive Toy.sample_store
     = Common.copy_assign 1%positive 2%positive Toy.sample_store.
Proof.
  assert (H1 : Toy.sample_store !! 1%positive = Some Toy.other_branch)
    by reflexivity.
  assert (H2 : Toy.sample_store !! 2%positive = Some Toy.sample_branch)
    by reflexivity.
  split; [exact H1|]. split; [exact H2|].
  destruct (move_is_copy 1%positive 2%positive Toy.sample_store
              Toy.sample_branch Toy.other_branch H1 H2)
    as (Hc & _ & Ha & _).
  split; [exact Hc | exact Ha].
Defined.

(** ** The priority queue *)

Import Solver.

Section SolverFacts.

Context {Graph : Type} `{GraphOps Graph} `{Strategies Graph}
        `{HistoryCodec (GraphPtr Graph)}.
Implicit Types (q rest : BranchQueue Graph) (b m top : Branch Graph).
Implicit Types (s : Proc Graph) (w : Worker Graph).

Lemma pop_top_None q : pop_top q = None -> q = [].
Proof.
  destruct q as [|b q]; [reflexivity|]. simpl.
  destruct (pop_top q) as [[m rest]|]; [|discriminate].
  destruct (Common.lt m b); discriminate.
Qed.

Lemma pop_top_perm q m rest : pop_top q = Some (m, rest) -> q ≡ₚ m :: rest.
Proof.
  revert m rest. induction q as [|b q IH]; intros m rest Hpop.
  - discriminate.
  - simpl in Hpop. destruct (pop_top q) as [[m' rest']|] eqn:E.
    + destruct (Common.lt m' b).
      * injection Hpop as <- <-. reflexivity.
      * injection Hpop as <- <-. rewrite (IH m' rest' eq_refl).
        apply Permutation_swap.
    + injection Hpop as <- <-. apply pop_top_None in E. now subst q.
Qed.

Lemma pop_top_max q m rest :
  pop_top q = Some (m, rest) ->
  forall b, b ∈ q -> Common.depth b <= Common.depth m.
Proof.
  revert m rest. induction q as [|b0 q IH]; intros m rest Hpop b Hin.
  - discriminate.
  - simpl in Hpop. destruct (pop_top q) as [[m' rest']|] eqn:E.
    + specialize (IH m' rest' eq_refl).
      unfold Common.lt in Hpop.
      destruct (Z.ltb_spec (Common.depth m') (Common.depth b0)) as [Hlt|Hge];
        injection Hpop as <- <-;
        apply elem_of_cons in Hin as [->|Hin];
        try lia; specialize (IH b Hin); lia.
    + injection Hpop as <- <-. apply pop_top_None in E. subst q.
      apply elem_of_cons in Hin as [->|Hin]; [lia|].
      now apply elem_of_nil in Hin.
Qed.

Lemma pop_top_is_Some b q : exists m rest, pop_top (b :: q) = Some (m, rest).
Proof.
  simpl. destruct (pop_top q) as [[m rest]|]; [|eauto].
  destruct (Common.lt m b); eauto.
Qed.

(** ** T2 *)

(** C7.  Answering a work request, under the queue lock: with more
    than one branch queued the employer pops a branch no queued branch
    is deeper than, posts [1] on [TAG_WORK_RESPONSE] and after it the
    size and the bytes of that branch on [TAG_WORK_STEALING] (cancelled
    at once if [terminate_flag] is up), and the queue is left with the
    other branches; with one branch or none it posts [0] and nothing
    else, and the queue is as before. *)
Theorem employer_donates_iff_more_than_one (destination_rank : Z) s :
  ((1 < length (queue s))%nat ->
     exists branch rest,
       pop_top (queue s) = Some (branch, rest)
       /\ queue s ≡ₚ branch :: rest
       /\ (forall b, b ∈ queue s -> Common.depth b <= Common.depth branch)
       /\ queue (employer_answer destination_rank s) = rest
       /\ trace (employer_answer destination_rank s)
          = trace s
              ++ [Send destination_rank TAG_WORK_RESPONSE (P_int 1);
                  Send destination_rank TAG_WORK_STEALING
                       (P_int (Z.of_nat (length (Common.serialize branch))));
                  Send destination_rank TAG_WORK_STEALING
                       (P_bytes (Common.serialize branch))]
              ++ (if terminate_flag s
                  then [CancelSend destination_rank TAG_WORK_STEALING;
                        CancelSend destination_rank TAG_WORK_STEALING]
                  else []))
  /\ ((length (queue s) <= 1)%nat ->
        queue (employer_answer destination_rank s) = queue s
        /\ trace (employer_answer destination_rank s)
           = trace s ++ [Send destination_rank TAG_WORK_RESPONSE (P_int 0)]).
Proof.
  unfold employer_answer. split; intros Hlen.
  - destruct (Nat.ltb_spec 1 (length (queue s))) as [_|]; [|lia].
    destruct (queue s) as [|b0 q0] eqn:Eq; [simpl in Hlen; lia|].
    destruct (pop_top_is_Some b0 q0) as (branch & rest & Hpop).
    rewrite Hpop. exists branch, rest.
    split; [reflexivity|].
    split; [now apply pop_top_perm|].
    split; [now apply (pop_top_max _ _ _ Hpop)|].
    unfold sendBranch. cbn [emit set_queue terminate_flag trace queue].
    destruct (terminate_flag s); cbn [emit trace queue];
      rewrite <- ?app_assoc; split; reflexivity.
  - destruct (Nat.ltb_spec 1 (length (queue s))) as [|_]; [lia|].
    split; reflexivity.
Qed.

(** ** T0: the collection at timeout *)

Lemma elem_of_worker_ranks (p i : Z) : i ∈ worker_ranks p <-> 1 <= i < p.
Proof.
  unfold worker_ranks. rewrite list_elem_of_In, in_map_iff. split.
  - intros (n & <- & Hn). apply in_seq in Hn. lia.
  - intros Hi. exists (Z.to_nat i). split; [lia|]. apply in_seq. lia.
Qed.

Lemma NoDup_worker_ranks (p : Z) : NoDup (worker_ranks p).
Proof.
  unfold worker_ranks. apply NoDup_ListNoDup, Finite.Injective_map_NoDup.
  - intros a b Hab. lia.
  - apply seq_NoDup.
Qed.

(** What the loop leaves after the ranks in [l], entered with
    [terminate_flag] down, when every buffer is a serialised branch:
    either no branch was at or below [_best_ub] and nothing changed, or
    [best_branch] is a received branch of least [ub], at or below the
    [_best_ub] the loop started with, and [_best_ub] is that [ub]. *)
Lemma collect_steps (buffers : Z -> list byte) (br : Z -> Branch Graph)
    (l : list Z) :
  (forall i, i ∈ l -> Common.deserialize (buffers i) = Some (br i)) ->
  forall best s,
  terminate_flag s = false ->
  exists best' s',
    for_each (collect_step buffers) l (false, best, s)
      = Some (false, best', s')
    /\ trace s' = trace s
         ++ flat_map (fun i => branch_receipt i TAG_TIMEOUT_SOLUTION (buffers i)) l
    /\ graph_to_color s' = graph_to_color s
    /\ terminate_flag s' = terminate_flag s
    /\ (((forall i, i ∈ l -> best_ub s < Common.ub (br i))
         /\ best' = best /\ best_ub s' = best_ub s)
        \/ (exists j, j ∈ l /\ best' = br j
              /\ Common.ub (br j) <= best_ub s
              /\ (forall i, i ∈ l -> Common.ub (br j) <= Common.ub (br i))
              /\ best_ub s' = Common.ub (br j))).
Proof.
  induction l as [|i l IH]; intros Hbuf best s Hdown.
  - exists best, s. cbn [for_each flat_map]. rewrite app_nil_r.
    repeat split. left. repeat split.
    intros i Hi. now apply elem_of_nil in Hi.
  - assert (Hi : Common.deserialize (buffers i) = Some (br i))
      by (apply Hbuf; left).
    assert (Hl : forall k, k ∈ l -> Common.deserialize (buffers k) = Some (br k))
      by (intros k Hk; apply Hbuf; now right).
    specialize (IH Hl).
    cbn [for_each collect_step]. unfold recvBranch at 1. rewrite Hdown, Hi.
    cbn [mbind option_bind negb orb andb emit best_ub].
    destruct (Z.leb_spec (Common.ub (br i)) (best_ub s)) as [Hle|Hgt].
    + cbn [mbind option_bind].
      destruct (IH (br i)
                  (store_best_ub (Common.ub (br i))
                     (emit (branch_receipt i TAG_TIMEOUT_SOLUTION (buffers i)) s))
                  Hdown)
        as (best' & s' & Hrun & Htr & Hg & Hf & Hsel).
      exists best', s'. split; [exact Hrun|].
      cbn [store_best_ub emit trace graph_to_color terminate_flag best_ub]
        in Htr, Hg, Hf, Hsel.
      split; [rewrite Htr; cbn [flat_map]; now rewrite <- app_assoc|].
      split; [exact Hg|]. split; [congruence|]. right.
      destruct Hsel as [(Hnone & -> & Hub)|(j & Hj & -> & Hjle & Hmin & Hub)].
      * exists i. split; [left|]. split; [reflexivity|]. split; [exact Hle|].
        split; [|exact Hub].
        intros k Hk. apply elem_of_cons in Hk as [->|Hk]; [lia|].
        specialize (Hnone k Hk). lia.
      * exists j. split; [now right|]. split; [reflexivity|].
        split; [lia|]. split; [|exact Hub].
        intros k Hk. apply elem_of_cons in Hk as [->|Hk]; [lia|].
        now apply Hmin.
    + cbn [mbind option_bind].
      destruct (IH best
                  (emit (branch_receipt i TAG_TIMEOUT_SOLUTION (buffers i)) s)
                  Hdown)
        as (best' & s' & Hrun & Htr & Hg & Hf & Hsel).
      exists best', s'. split; [exact Hrun|].
      cbn [emit trace graph_to_color terminate_flag best_ub]
        in Htr, Hg, Hf, Hsel.
      split; [rewrite Htr; cbn [flat_map]; now rewrite <- app_assoc|].
      split; [exact Hg|]. split; [congruence|].
      destruct Hsel as [(Hnone & -> & Hub)|(j & Hj & -> & Hjle & Hmin & Hub)].
      * left. split; [|split; [reflexivity|exact Hub]].
        intros k Hk. apply elem_of_cons in Hk as [->|Hk]; [lia|].
        now apply Hnone.
      * right. exists j. split; [now right|]. split; [reflexivity|].
        split; [exact Hjle|]. split; [|exact Hub].
        intros k Hk. apply elem_of_cons in Hk as [->|Hk]; [lia|].
        now apply Hmin.
Qed.

(** Entered with [terminate_flag] up, the loop receives nothing:
    every [recvBranch] returns [Branch()], and [best_branch] has no
    graph when the loop ends. *)
Lemma collect_steps_flag_up (buffers : Z -> list byte) (l : list Z) :
  forall s,
  terminate_flag s = true ->
  exists s',
    for_each (collect_step buffers) l (false, Branch_empty, s)
      = Some (false, Branch_empty, s')
    /\ terminate_flag s' = true.
Proof.
  induction l as [|i l IH]; intros s Hup.
  - exists s. split; [reflexivity|exact Hup].
  - cbn [for_each collect_step]. unfold recvBranch at 1. rewrite Hup.
    cbn [mbind option_bind negb orb andb].
    destruct (Common.ub Branch_empty
              <=? best_ub (emit [CancelRecv i TAG_TIMEOUT_SOLUTION] s));
      cbn [mbind option_bind]; apply IH; exact Hup.
Qed.

(** The timeout branch on rank 0, when some received branch is at or
    below [_best_ub]. *)
Lemma on_timeout_coordinator (p : Z) (buffers : Z -> list byte)
    (br : Z -> Branch Graph) s :
  terminate_flag s = false ->
  (forall i, 1 <= i < p -> Common.deserialize (buffers i) = Some (br i)) ->
  (exists i, 1 <= i < p /\ Common.ub (br i) <= best_ub s) ->
  (forall i, 1 <= i < p ->
     is_Some (ColorInitialGraph (graph_to_color s) (br i))) ->
  exists j s',
    1 <= j < p
    /\ on_timeout 0 p buffers s = Some s'
    /\ ColorInitialGraph (graph_to_color s) (br j) = Some (graph_to_color s')
    /\ Common.ub (br j) <= best_ub s
    /\ (forall i, 1 <= i < p -> Common.ub (br j) <= Common.ub (br i))
    /\ best_ub s' = Common.ub (br j)
    /\ trace s' = trace s
         ++ flat_map (fun i => branch_receipt i TAG_TIMEOUT_SOLUTION (buffers i))
                     (worker_ranks p).
Proof.
  intros Hdown Hbuf (i0 & Hi0 & Hle0) Hcol.
  destruct (collect_steps buffers br (worker_ranks p)
              (fun i Hi => Hbuf i (proj1 (elem_of_worker_ranks p i) Hi))
              Branch_empty s Hdown)
    as (best' & s1 & Hrun & Htr & Hg & _ & Hsel).
  destruct Hsel as [(Hnone & _)|(j & Hj & -> & Hjle & Hmin & Hub)].
  - specialize (Hnone i0 (proj2 (elem_of_worker_ranks p i0) Hi0)). lia.
  - apply elem_of_worker_ranks in Hj.
    destruct (Hcol j Hj) as (colored & Hcolored).
    exists j, (set_graph colored s1).
    split; [exact Hj|].
    split.
    { unfold on_timeout, collect_timeout. cbn [Z.eqb]. rewrite Hrun.
      cbn [mbind option_bind]. rewrite Hg, Hcolored. reflexivity. }
    split; [exact Hcolored|]. split; [exact Hjle|].
    split; [intros i Hi; apply Hmin; now apply elem_of_worker_ranks|].
    split; [exact Hub|exact Htr].
Qed.

(** When every received branch is above [_best_ub] (or there is no
    other rank), [best_branch] is still the default-initialised branch
    when [ColorInitialGraph] dereferences its graph. *)
Lemma on_timeout_nothing_kept (p : Z) (buffers : Z -> list byte)
    (br : Z -> Branch Graph) s :
  (forall i, 1 <= i < p -> Common.deserialize (buffers i) = Some (br i)) ->
  (forall i, 1 <= i < p -> best_ub s < Common.ub (br i)) ->
  on_timeout 0 p buffers s = None.
Proof.
  intros Hbuf Habove.
  unfold on_timeout, collect_timeout. cbn [Z.eqb].
  destruct (terminate_flag s) eqn:Hflag.
  - destruct (collect_steps_flag_up buffers (worker_ranks p) s Hflag)
      as (s1 & Hrun & _).
    rewrite Hrun. reflexivity.
  - destruct (collect_steps buffers br (worker_ranks p)
                (fun i Hi => Hbuf i (proj1 (elem_of_worker_ranks p i) Hi))
                Branch_empty s Hflag)
      as (best' & s1 & Hrun & _ & _ & _ & Hsel).
    rewrite Hrun. cbn [mbind option_bind].
    destruct Hsel as [(_ & -> & _)|(j & Hj & _ & Hjle & _)].
    + reflexivity.
    + apply elem_of_worker_ranks in Hj. specialize (Habove j Hj). lia.
Qed.

(** X23.  The timeout collection when it goes well.  Provided that
    [terminate_flag] is down, that no other thread stores into
    [_best_ub] while the loop runs, that some received branch has an
    [ub] at or below the [_best_ub] of rank 0, and that the received
    branches carry a graph the root can be coloured from: rank 0 posts
    one [recvBranch] on [TAG_TIMEOUT_SOLUTION] for each rank
    [1 .. p-1], in that order and for no other, and the colouring it
    installs is that of a received branch whose [ub] is at most
    [_best_ub] and at most the [ub] of every branch received. *)
Theorem timeout_keeps_smallest_ub (p : Z) (buffers : Z -> list byte)
    (br : Z -> Branch Graph) s :
  terminate_flag s = false ->
  (forall i, 1 <= i < p -> Common.deserialize (buffers i) = Some (br i)) ->
  (exists i, 1 <= i < p /\ Common.ub (br i) <= best_ub s) ->
  (forall i, 1 <= i < p ->
     is_Some (ColorInitialGraph (graph_to_color s) (br i))) ->
  exists j s',
    1 <= j < p
    /\ on_timeout 0 p buffers s = Some s'
    /\ ColorInitialGraph (graph_to_color s) (br j) = Some (graph_to_color s')
    /\ Common.ub (br j) <= best_ub s
    /\ (forall i, 1 <= i < p -> Common.ub (br j) <= Common.ub (br i))
    /\ best_ub s' = Common.ub (br j)
    /\ trace s' = trace s
         ++ flat_map (fun i => branch_receipt i TAG_TIMEOUT_SOLUTION (buffers i))
                     (worker_ranks p)
    /\ NoDup (worker_ranks p)
    /\ (forall i, i ∈ worker_ranks p <-> 1 <= i < p).
Proof.
  intros Hdown Hbuf Hsome Hcol.
  destruct (on_timeout_coordinator p buffers br s Hdown Hbuf Hsome Hcol)
    as (j & s' & Hj & Hrun & Hcolored & Hle & Hmin & Hub & Htr).
  exists j, s'.
  split; [exact Hj|]. split; [exact Hrun|]. split; [exact Hcolored|].
  split; [exact Hle|]. split; [exact Hmin|]. split; [exact Hub|].
  split; [exact Htr|].
  split; [apply NoDup_worker_ranks|].
  intros i. apply elem_of_worker_ranks.
Qed.

(** ** T0: idle bookkeeping *)

Lemma drain_idle_defined (msgs : list (Z * Z)) (t : Terminator) s :
  (forall source v, (source, v) ∈ msgs ->
     0 <= source < Z.of_nat (length (idle_status t))) ->
  exists t' s',
    drain_idle msgs t s = Some (t', s')
    /\ idle_status t'
       = fold_left (fun l msg => <[Z.to_nat msg.1 := msg.2]> l) msgs
                   (idle_status t)
    /\ solution_found t' = solution_found t
    /\ timeout_signal t' = timeout_signal t
    /\ best_ub s' = best_ub s
    /\ graph_to_color s' = graph_to_color s
    /\ terminate_flag s' = terminate_flag s.
Proof.
  unfold drain_idle. revert t s.
  induction msgs as [|[source v] msgs IH]; intros t s Hsrc.
  - exists t, s. cbn. repeat split.
  - assert (Hin : 0 <= source < Z.of_nat (length (idle_status t)))
      by (apply (Hsrc source v); left).
    cbn [for_each drain_step]. unfold vec_set.
    destruct (Z.ltb_spec source 0) as [|_]; [lia|].
    destruct (Z.leb_spec (Z.of_nat (length (idle_status t))) source) as [|_];
      [lia|].
    cbn [orb mbind option_bind].
    destruct (IH (set_idle_status (<[Z.to_nat source := v]> (idle_status t)) t)
                 (emit [Recv source TAG_IDLE (P_int v)] s))
      as (t' & s' & Hrun & Hst & Hsf & Hts & Hub & Hg & Hf).
    { intros source' v' Hin'. cbn [set_idle_status idle_status].
      rewrite length_insert. apply (Hsrc source' v'). now right. }
    exists t', s'. split; [exact Hrun|]. cbn [fold_left fst snd].
    cbn [set_idle_status idle_status solution_found timeout_signal]
      in Hst, Hsf, Hts.
    cbn [emit best_ub graph_to_color terminate_flag] in Hub, Hg, Hf.
    auto 10.
Qed.

Lemma all_idle_spec (t : Terminator) :
  all_idle t = true
  <-> forall i, (i < length (idle_status t))%nat -> idle_status t !! i = Some 1.
Proof.
  unfold all_idle. rewrite forallb_forall. split.
  - intros Hall i Hi. destruct (lookup_lt_is_Some_2 _ _ Hi) as (x & Hx).
    rewrite Hx. f_equal. apply Z.eqb_eq, Hall.
    apply list_elem_of_In, (list_elem_of_lookup_2 _ i). exact Hx.
  - intros Hall x Hx. apply list_elem_of_In, list_elem_of_lookup in Hx as (i & Hi).
    apply Z.eqb_eq. pose proof (lookup_lt_Some _ _ _ Hi) as Hlt.
    specialize (Hall i Hlt). congruence.
Qed.

(** C6, as the code has it.  In a pass without a solution message the
    coordinator drains the [TAG_IDLE] messages into [idle_status], each
    into the slot of its source, the slot of rank 0 like any other, and
    raises [solution_found] exactly when every slot, slot 0 included,
    then holds 1. *)
Theorem all_idle_covers_every_rank (timeout_seconds : Z) (tk : Tick)
    (t : Terminator) s :
  solution_msg tk = None ->
  solution_found t = 0 ->
  (forall source v, (source, v) ∈ idle_msgs tk ->
     0 <= source < Z.of_nat (length (idle_status t))) ->
  exists t' s',
    coordinator_listen timeout_seconds tk t s = Some (t', s')
    /\ idle_status t'
       = fold_left (fun l msg => <[Z.to_nat msg.1 := msg.2]> l) (idle_msgs tk)
                   (idle_status t)
    /\ (solution_found t' = 1
        <-> forall i, (i < length (idle_status t'))%nat ->
                      idle_status t' !! i = Some 1)
    /\ (forall msgs v, (0 < length (idle_status t))%nat ->
          idle_msgs tk = msgs ++ [(0, v)] -> idle_status t' !! 0%nat = Some v).
Proof.
  intros Hnosol Hsf Hsrc. unfold coordinator_listen. rewrite Hnosol.
  cbn [mbind option_bind].
  set (t1 := if elapsed tk >=? timeout_seconds
             then set_timeout_signal 1 t else t).
  assert (Hst1 : idle_status t1 = idle_status t)
    by (subst t1; destruct (elapsed tk >=? timeout_seconds); reflexivity).
  assert (Hsf1 : solution_found t1 = 0)
    by (subst t1; destruct (elapsed tk >=? timeout_seconds); exact Hsf).
  destruct (drain_idle_defined (idle_msgs tk) t1 s)
    as (t3 & s3 & Hrun & Hst & Hsf3 & _).
  { rewrite Hst1. exact Hsrc. }
  rewrite Hrun. cbn [mbind option_bind].
  rewrite Hst1 in Hst.
  assert (Hzero : forall msgs v, (0 < length (idle_status t))%nat ->
            idle_msgs tk = msgs ++ [(0, v)] -> idle_status t3 !! 0%nat = Some v).
  { intros msgs v Hlen Hmsgs. rewrite Hst, Hmsgs, fold_left_app.
    cbn [fold_left fst snd Z.to_nat]. apply list_lookup_insert_eq.
    clear - Hlen. revert Hlen. generalize (idle_status t).
    induction msgs as [|msg msgs IH]; intros l Hl; [exact Hl|].
    cbn [fold_left]. apply IH. now rewrite length_insert. }
  destruct (all_idle t3) eqn:Hall.
  - exists (set_solution_found 1 t3), (set_optimum_time (elapsed_idle tk) s3).
    split; [reflexivity|]. cbn [set_solution_found idle_status solution_found].
    split; [exact Hst|]. split; [|exact Hzero].
    split; [intros _; now apply all_idle_spec|reflexivity].
  - exists t3, s3. split; [reflexivity|]. split; [exact Hst|].
    split; [|exact Hzero].
    rewrite <- all_idle_spec, Hall, Hsf3, Hsf1. split; intros; discriminate.
Qed.

(** ** T0: a solution and a timeout in one pass *)

Lemma receive_solution_defined (m : SolutionMsg) (stamp : Z)
    (t : Terminator) s (ob : Branch Graph) (g1 : Graph) :
  terminate_flag s = false ->
  Common.deserialize (sol_buffer m) = Some ob ->
  ColorInitialGraph (graph_to_color s) ob = Some g1 ->
  exists s',
    receive_solution m stamp t s = Some (set_solution_found 1 t, s')
    /\ graph_to_color s' = g1
    /\ best_ub s' = Common.ub ob
    /\ terminate_flag s' = terminate_flag s.
Proof.
  intros Hdown Hbuf Hcol. unfold receive_solution, recvBranch.
  cbn [emit store_best_ub terminate_flag]. rewrite Hdown, Hbuf.
  cbn [mbind option_bind emit store_best_ub graph_to_color]. rewrite Hcol.
  cbn [mbind option_bind]. eexists. split; [reflexivity|].
  cbn [store_best_ub set_graph set_optimum_time emit graph_to_color best_ub
       terminate_flag].
  repeat split; assumption.
Qed.


(** ** T3: the solution short-circuit *)

(** STANDARD leaves the loop on a branch whose [ub] is [expected_chi]. *)
Lemma standard_short_circuit (fuel : nat) (rand : nat -> Z)
    (my_rank p expected_chi : Z) (replies : list Reply) w s top rest :
  pop_top (queue s) = Some (top, rest) ->
  Common.ub top = expected_chi ->
  standard_iteration fuel rand my_rank p expected_chi replies w s
  = Some (Break, set_current top w, declare_solution top (set_queue rest s)).
Proof.
  intros Hpop Hub. unfold standard_iteration. rewrite Hpop.
  now rewrite (proj2 (Z.eqb_eq _ _) Hub).
Qed.

(** BALANCED goes on to the next pass. *)
Lemma balanced_short_circuit (fuel : nat) (rand : nat -> Z)
    (my_rank p expected_chi : Z) (replies : list Reply) w s top rest :
  pop_top (queue s) = Some (top, rest) ->
  Common.ub top = expected_chi ->
  balanced_iteration fuel rand my_rank p expected_chi replies w s
  = Some (Continue, set_current top w,
          declare_solution top (set_queue rest s)).
Proof.
  intros Hpop Hub. unfold balanced_iteration. rewrite Hpop.
  now rewrite (proj2 (Z.eqb_eq _ _) Hub).
Qed.

(** What declaring a solution does to the process. *)
Lemma declare_solution_effect top s :
  best_ub (declare_solution top s) = Common.ub top
  /\ queue (declare_solution top s) = queue s
  /\ trace (declare_solution top s)
     = trace s
         ++ [Send 0 TAG_SOLUTION_FOUND (P_ushort (Common.ub top));
             Send 0 TAG_SOLUTION_FOUND
                  (P_int (Z.of_nat (length (Common.serialize top))));
             Send 0 TAG_SOLUTION_FOUND (P_bytes (Common.serialize top))]
         ++ (if terminate_flag s
             then [CancelSend 0 TAG_SOLUTION_FOUND;
                   CancelSend 0 TAG_SOLUTION_FOUND]
             else []).
Proof.
  unfold declare_solution, sendBranch.
  cbn [emit store_best_ub terminate_flag trace queue best_ub].
  destruct (terminate_flag s); cbn [emit trace queue best_ub];
    rewrite <- ?app_assoc; repeat split.
Qed.

(** ** T3: a graph with no pair to branch on *)


(** ** The steal client with one process *)

(** C9 on the code.  With one process the loop that picks a victim
    never ends: [rand() % 1] is 0, the rank of the caller, at every
    call, so no amount of fuel gives a target.  [request_work] does not
    return, and a search thread that enters the idle path with
    [terminate_flag] down does not leave it. *)
Theorem single_process_steal_never_returns (fuel : nat) (rand : nat -> Z)
    (calls : nat) (reply : Reply) (replies : list Reply) w s :
  choose_target fuel rand 0 1 0 calls = None
  /\ request_work fuel rand 0 1 reply w s = None
  /\ (terminate_flag s = false ->
      idle_path fuel rand 0 1 replies w s = None).
Proof.
  assert (Hloop : forall k, choose_target fuel rand 0 1 0 k = None).
  { induction fuel as [|fuel IH]; intros k; [reflexivity|].
    cbn [choose_target Z.eqb]. rewrite Z.rem_1_r. apply IH. }
  assert (Hreq : forall r w0 s0, request_work fuel rand 0 1 r w0 s0 = None).
  { intros r w0 s0. unfold request_work. now rewrite Hloop. }
  split; [apply Hloop|]. split; [apply Hreq|].
  intros Hflag. unfold idle_path.
  destruct replies as [|r replies]; cbn [steal_loop emit terminate_flag];
    rewrite Hflag; [reflexivity|].
  now rewrite Hreq.
Qed.

(** With a second process the loop ends as soon as [rand()] names it. *)
Lemma choose_target_other (fuel : nat) (rand : nat -> Z) (my_rank p : Z)
    (calls : nat) :
  Z.rem (rand calls) p <> my_rank ->
  choose_target (S fuel) rand my_rank p my_rank calls
  = Some (Z.rem (rand calls) p, S calls).
Proof.
  intros Hne. cbn [choose_target]. rewrite Z.eqb_refl.
  destruct fuel; cbn [choose_target];
    now destruct (Z.eqb_spec (Z.rem (rand calls) p) my_rank).
Qed.

(** ** T1 *)

Lemma min_element_le (l : list Z) (m x : Z) :
  min_element l = Some m -> x ∈ l -> m <= x.
Proof.
  revert m. induction l as [|y l IH]; intros m Hm Hx.
  - now apply elem_of_nil in Hx.
  - cbn [min_element] in Hm. destruct (min_element l) as [m'|] eqn:E.
    + specialize (IH m' eq_refl).
      destruct (Z.ltb_spec m' y); injection Hm as <-;
        apply elem_of_cons in Hx as [->|Hx]; try lia;
        specialize (IH Hx); lia.
    + injection Hm as <-. destruct l as [|z l].
      * apply elem_of_cons in Hx as [->|Hx]; [lia|].
        now apply elem_of_nil in Hx.
      * cbn [min_element] in E. destruct (min_element l) as [m'|];
          [destruct (m' <? z)|]; discriminate.
Qed.

(** A gathering that nothing interleaves with does not raise
    [_best_ub]: the value it loaded is among the values gathered. *)
Lemma gather_round_alone (my_rank : Z) (contributions : list Z) s s' :
  0 <= my_rank < Z.of_nat (length contributions) ->
  gather_round my_rank contributions (fun x => x) s = Some s' ->
  best_ub s' <= best_ub s.
Proof.
  intros Hr. unfold gather_round.
  destruct (min_element (<[Z.to_nat my_rank := best_ub s]> contributions))
    as [m|] eqn:E; [|discriminate].
  cbn [mbind option_bind]. intros [= <-]. cbn [store_best_ub best_ub].
  apply (min_element_le _ _ _ E).
  apply (list_elem_of_lookup_2 _ (Z.to_nat my_rank)).
  apply list_lookup_insert_eq. lia.
Qed.

End SolverFacts.

(** ** Runs on the small implementation *)

Section Runs.

Import Toy.
#[local] Existing Instance greedy.

(** C1 on the code.  STANDARD, rank 0 of two, on [path4] with
    [expected_chi = 2].  After the seeding [_best_ub] is 3.  Thread 1
    loads it and starts the all-gather; while the collective is in
    flight thread 3 makes two passes and lowers [_best_ub] to 2; the
    collective completes with the 3 loaded before and the 3 of rank 1,
    and thread 1 stores their minimum: [_best_ub] goes from 2 back to
    3, where [min(BestUB, min(gathered))] is 2. *)
Theorem gather_store_raises_best_ub :
  best_ub standard_seeded = 3
  /\ best_ub (two_standard_passes standard_seeded) = 2
  /\ min_element (<[0%nat := best_ub standard_seeded]> [3; 3]) = Some 3
  /\ best_ub <$> gather_round 0 [3; 3] two_standard_passes standard_seeded
     = Some 3.
Proof. repeat split; vm_compute; reflexivity. Qed.

(** C4 on the code.  BALANCED with one process on [path4],
    [expected_chi = 2], two branches queued and the one on top with
    [ub = 2].  Both loops store 2 into [_best_ub] and post the [ub],
    the size and the bytes of the branch to rank 0.  STANDARD then
    leaves the loop with the other branch still queued; BALANCED makes
    the next pass, which pops that branch. *)
Theorem balanced_short_circuit_keeps_searching :
  ('(w, s) ← balanced_two_children;
   '(top, rest) ← pop_top (queue s);
   '(flow_standard, _, s0) ← standard_pass greedy 0 1 2 w s;
   '(_, s0') ← search_loop (fun _ => standard_pass greedy 0 1 2)
                           [[]; []; []] w s;
   '(flow_1, w1, s1) ← balanced_pass greedy 0 1 2 w s;
   '(flow_2, _, s2) ← balanced_pass greedy 0 1 2 w1 s1;
   Some (Common.ub top, length rest,
         flow_standard, best_ub s0, length (queue s0), length (queue s0'),
         flow_1, best_ub s1, length (queue s1),
         bool_decide (trace s1
           = [Send 0 TAG_SOLUTION_FOUND (P_ushort 2);
              Send 0 TAG_SOLUTION_FOUND
                   (P_int (Z.of_nat (length (Common.serialize top))));
              Send 0 TAG_SOLUTION_FOUND (P_bytes (Common.serialize top))]),
         bool_decide (trace s0 = trace s1),
         flow_2, length (queue s2)))
  = Some (2, 1%nat,
          Break, 2, 1%nat, 1%nat,
          Continue, 2, 1%nat, true, true,
          Continue, 0%nat).
Proof. vm_compute. reflexivity. Qed.

(** C3 on the code.  Two timeouts on [path3], rank 0 with
    [terminate_flag] down.

    With two processes, rank 0 holds [_best_ub = 2] and rank 1 sends a
    branch with [ub = 3]: the loop keeps nothing, [best_branch] is still
    the default-initialised branch, without a graph, when
    [ColorInitialGraph] dereferences it, and the pass has no defined
    outcome.  With a single process the loop does not run at all and
    the same happens.

    With three processes and [_best_ub = 3], rank 1 sends the swapped
    two-colouring and rank 2 a three-colouring.  The first pass of the
    loop keeps the branch of rank 1 and stores 2 into [_best_ub].
    Thread 1, which loaded 3 before that pass, completes its gathering
    of [3, 3, 3] and stores 3.  [found] is still [false], so the second
    pass compares the [ub] of rank 2 with [_best_ub] only: 3 is not
    above 3, and the branch of rank 2 replaces the one of rank 1.  The
    colouring installed uses three colours, where the smallest [ub]
    received is 2. *)
Theorem timeout_collection_misses_smallest_ub :
  terminate_flag ToyRuns.leading_proc = false
  /\ ('(found, best_branch, s') ←
         collect_timeout 2 ToyRuns.trailing_mail ToyRuns.leading_proc;
       Some (found, g best_branch, best_ub s'))
     = Some (false, None, 2)
  /\ on_timeout 0 2 ToyRuns.trailing_mail ToyRuns.leading_proc = None
  /\ on_timeout 0 1 ToyRuns.trailing_mail ToyRuns.leading_proc = None
  /\ ('(found_1, best_1, s1) ←
         collect_step ToyRuns.late_mail
           (false, Branch_empty, coordinator_proc) 1;
       s2 ← gather_round 0 [3; 3; 3] ToyRuns.first_receive coordinator_proc;
       '(found_2, best_2, s3) ←
         collect_step ToyRuns.late_mail (found_1, best_1, s2) 2;
       colored ← ColorInitialGraph (graph_to_color s3) best_2;
       Some (found_1, Common.ub best_1, best_ub s1,
             best_ub (ToyRuns.first_receive coordinator_proc), best_ub s2,
             found_2, Common.ub best_2, best_ub s3,
             GetFullColoring colored))
     = Some (false, 2, 2, 2, 3, false, 3, 3, [0; 1; 2; 3]).
Proof. repeat split; vm_compute; reflexivity. Qed.



Lemma timeout_keeps_smallest_ub_witness :
  exists j s',
    1 <= j < 3
    /\ on_timeout 0 3 timeout_mail coordinator_proc = Some s'
    /\ ColorInitialGraph path3 (timeout_branch j) = Some (graph_to_color s')
    /\ (forall i, 1 <= i < 3 ->
          Common.ub (timeout_branch j) <= Common.ub (timeout_branch i)).
Proof.
  destruct (timeout_keeps_smallest_ub 3 timeout_mail timeout_branch
              coordinator_proc)
    as (j & s' & Hj & Hrun & Hcol & _ & Hmin & _).
  - reflexivity.
  - intros i Hi. assert (i = 1 \/ i = 2) as [-> | ->] by lia;
      vm_compute; reflexivity.
  - exists 2. split; [lia|]. vm_compute. discriminate.
  - intros i Hi. assert (i = 1 \/ i = 2) as [-> | ->] by lia;
      vm_compute; eauto.
  - exists j, s'. auto.
Defined.

(** C6 as stated fails.  With two processes, once rank 1 has reported
    idle every rank in [1 .. P-1] is idle, and the coordinator does not
    raise [solution_found]: slot 0 is still 0.  Slot 0 is not 0 for
    good either: the search thread of rank 0 reports to rank 0 like any
    other (first event of its idle path), and draining that message
    sets slot 0. *)
Lemma workers_idle_is_not_all_idle :
  ('(t', _) ← coordinator_listen 60 idle_tick (Terminator_init 2)
                coordinator_proc;
   Some (idle_status t', solution_found t'))
  = Some ([0; 1], 0)
  /\ ('(_, _, s') ← standard_iteration 1 (fun _ => 1) 0 2 2 [Terminated]
                      Worker_init coordinator_proc;
      head (trace s'))
     = Some (Send 0 TAG_IDLE (P_int 1))
  /\ ('(t', _) ← drain_idle [(0, 1)] (Terminator_init 2) coordinator_proc;
      Some (idle_status t'))
     = Some [1; 0].
Proof. repeat split; vm_compute; reflexivity. Qed.

Lemma all_idle_covers_every_rank_witness :
  exists t' s',
    coordinator_listen 60 idle_tick (Terminator_init 2) coordinator_proc
    = Some (t', s')
    /\ idle_status t' = [0; 1]
    /\ (solution_found t' = 1
        <-> forall i, (i < length (idle_status t'))%nat ->
                      idle_status t' !! i = Some 1).
Proof.
  destruct (all_idle_covers_every_rank 60 idle_tick (Terminator_init 2)
              coordinator_proc)
    as (t' & s' & Hrun & Hst & Hiff & _).
  - reflexivity.
  - reflexivity.
  - intros source v Hin. vm_compute in Hin.
    apply elem_of_cons in Hin as [[= -> ->]|Hin];
      [vm_compute; split; [discriminate|reflexivity]|].
    now apply elem_of_nil in Hin.
  - exists t', s'. auto.
Defined.

Lemma employer_donates_iff_more_than_one_witness :
  (1 < length (queue busy_proc))%nat
  /\ (exists branch rest,
        pop_top (queue busy_proc) = Some (branch, rest)
        /\ queue (employer_answer 1 busy_proc) = rest)
  /\ (length (queue complete_proc) <= 1)%nat
  /\ queue (employer_answer 1 complete_proc) = queue complete_proc.
Proof.
  assert (H2 : (1 < length (queue busy_proc))%nat) by (vm_compute; lia).
  assert (H1 : (length (queue complete_proc) <= 1)%nat) by (vm_compute; lia).
  split; [exact H2|]. split.
  - destruct (proj1 (employer_donates_iff_more_than_one 1 busy_proc) H2)
      as (branch & rest & Hpop & _ & _ & Hq & _).
    exists branch, rest. auto.
  - split; [exact H1|].
    exact (proj1 (proj2 (employer_donates_iff_more_than_one 1 complete_proc)
                        H1)).
Defined.


Lemma single_process_steal_never_returns_witness :
  terminate_flag coordinator_proc = false
  /\ idle_path 5 no_rand 0 1 [Terminated] Worker_init coordinator_proc = None.
Proof.
  split; [reflexivity|].
  exact (proj2 (proj2 (single_process_steal_never_returns 5 no_rand 0
                         Terminated [Terminated] Worker_init
                         coordinator_proc)) eq_refl).
Defined.

End Runs.

(* ================================================================== *)
(** * Further properties *)
(* ================================================================== *)

(** ** The wire format, read from the buffer side *)

Lemma byte_of_Z_of_byte (b : byte) : Wire.byte_of_Z (Wire.Z_of_byte b) = b.
Proof.
  unfold Wire.byte_of_Z. pose proof (Z_of_byte_range b) as Hr.
  rewrite Z.mod_small by lia. unfold Wire.Z_of_byte.
  rewrite N2Z.id, Byte.of_to_N. reflexivity.
Qed.

Lemma byte_of_Z_mod (z : Z) : Wire.byte_of_Z (z mod 256) = Wire.byte_of_Z z.
Proof. unfold Wire.byte_of_Z. now rewrite Z.mod_mod by lia. Qed.

Lemma le_value_range (bs : list byte) :
  0 <= Wire.le_value bs < 256 ^ Z.of_nat (length bs).
Proof.
  induction bs as [|b bs IH].
  - simpl. lia.
  - cbn [Wire.le_value length]. pose proof (Z_of_byte_range b).
    rewrite Nat2Z.inj_succ, Z.pow_succ_r by lia. lia.
Qed.

Lemma le_bytes_le_value (bs : list byte) :
  Wire.le_bytes (length bs) (Wire.le_value bs) = bs.
Proof.
  induction bs as [|b bs IH]; [reflexivity|].
  cbn [Wire.le_value length Wire.le_bytes].
  pose proof (Z_of_byte_range b) as Hb.
  assert (Hq : (Wire.Z_of_byte b + 256 * Wire.le_value bs) / 256
               = Wire.le_value bs).
  { rewrite Z.mul_comm, Z.div_add by lia. rewrite Z.div_small by lia. lia. }
  assert (Hm : (Wire.Z_of_byte b + 256 * Wire.le_value bs) mod 256
               = Wire.Z_of_byte b).
  { rewrite Z.mul_comm, Z.mod_add by lia. apply Z.mod_small. lia. }
  rewrite Hq, IH. f_equal.
  rewrite <- byte_of_Z_mod, Hm. apply byte_of_Z_of_byte.
Qed.

Lemma le_bytes_mod (n : nat) (z : Z) :
  Wire.le_bytes n (z mod 256 ^ Z.of_nat n) = Wire.le_bytes n z.
Proof.
  revert z. induction n as [|n IH]; intros z; [reflexivity|].
  cbn [Wire.le_bytes].
  rewrite Nat2Z.inj_succ, Z.pow_succ_r by lia.
  assert (Hpos : 0 < 256 ^ Z.of_nat n) by (apply Z.pow_pos_nonneg; lia).
  rewrite Z.rem_mul_r by lia.
  assert (Hlow : 0 <= z mod 256 < 256) by (apply Z.mod_pos_bound; lia).
  f_equal.
  - rewrite <- byte_of_Z_mod. rewrite Z.mul_comm, Z.mod_add by lia.
    rewrite Z.mod_mod by lia. apply byte_of_Z_mod.
  - rewrite Z.mul_comm, Z.div_add by lia. rewrite Z.div_small by lia.
    rewrite Z.add_0_l. apply IH.
Qed.

Lemma le_bytes_to_int (bs : list byte) :
  length bs = 4%nat ->
  Wire.is_int (Wire.to_int bs) /\ Wire.le_bytes 4 (Wire.to_int bs) = bs.
Proof.
  intros Hlen. pose proof (le_value_range bs) as Hr. rewrite Hlen in Hr.
  change (256 ^ Z.of_nat 4) with (2 ^ 32) in Hr.
  unfold Wire.to_int, Wire.is_int.
  destruct (Z.ltb_spec (Wire.le_value bs) (2 ^ 31)) as [Hlt|Hge].
  - split; [lia|]. rewrite <- Hlen at 1. apply le_bytes_le_value.
  - split; [lia|]. rewrite <- le_bytes_mod.
    change (256 ^ Z.of_nat 4) with (2 ^ 32).
    replace ((Wire.le_value bs - 2 ^ 32) mod 2 ^ 32) with (Wire.le_value bs).
    + rewrite <- Hlen at 1. apply le_bytes_le_value.
    + apply Z.mod_unique with (q := -1); lia.
Qed.

Lemma le_bytes_to_ushort (bs : list byte) :
  length bs = 2%nat ->
  Wire.is_ushort (Wire.to_ushort bs)
  /\ Wire.le_bytes 2 (Wire.to_ushort bs) = bs.
Proof.
  intros Hlen. pose proof (le_value_range bs) as Hr. rewrite Hlen in Hr.
  change (256 ^ Z.of_nat 2) with (2 ^ 16) in Hr.
  unfold Wire.to_ushort, Wire.is_ushort. split; [lia|].
  rewrite <- Hlen at 1. apply le_bytes_le_value.
Qed.

Section BufferSide.

Context {GraphHistory : Type} {codec : HistoryCodec GraphHistory}.
Implicit Types (b : Common.Branch GraphHistory) (buffer : list byte).

(** X1.  [deserialize] is defined exactly on the buffers of at least
    10 bytes, and what it returns is a branch whose [lb] and [depth] fit
    an [int] and whose [ub] fits an [unsigned short], with the history
    decoded from the bytes after the tenth. *)
Theorem deserialize_defined_and_typed buffer :
  (is_Some (Common.deserialize buffer) <-> (10 <= length buffer)%nat)
  /\ (forall b, Common.deserialize buffer = Some b ->
        Common.well_typed b
        /\ Common.history b = Deserialize (drop 10 buffer)).
Proof.
  unfold Common.deserialize.
  destruct (Nat.ltb_spec (length buffer) 10) as [Hshort|Hlong].
  - split.
    + split; [intros [b Hb]; discriminate|lia].
    + intros b Hb. discriminate.
  - split; [split; [lia|eauto]|].
    intros b [= <-]. split; [|reflexivity].
    unfold Common.well_typed. cbn [Common.lb Common.ub Common.depth].
    split; [|split].
    + apply le_bytes_to_int. rewrite length_take. lia.
    + apply le_bytes_to_ushort. rewrite length_take, length_drop. lia.
    + apply le_bytes_to_int. rewrite length_take, length_drop. lia.
Qed.

(** X2.  Serialising what [deserialize] read gives the buffer back,
    byte for byte, when the history codec writes back what it read from
    the tail. *)
Theorem serialize_after_deserialize buffer :
  (10 <= length buffer)%nat ->
  Serialize (Deserialize (drop 10 buffer)) = drop 10 buffer ->
  exists b,
    Common.deserialize buffer = Some b /\ Common.serialize b = buffer.
Proof.
  intros Hlong Hcodec. unfold Common.deserialize.
  destruct (Nat.ltb_spec (length buffer) 10) as [|_]; [lia|].
  eexists. split; [reflexivity|].
  unfold Common.serialize.
  cbn [Common.lb Common.ub Common.depth Common.history].
  rewrite Hcodec.
  rewrite (proj2 (le_bytes_to_int (take 4 buffer)
                    ltac:(rewrite length_take; lia))).
  rewrite (proj2 (le_bytes_to_ushort (take 2 (drop 4 buffer))
                    ltac:(rewrite length_take, length_drop; lia))).
  rewrite (proj2 (le_bytes_to_int (take 4 (drop 6 buffer))
                    ltac:(rewrite length_take, length_drop; lia))).
  replace (drop 10 buffer) with (drop 4 (drop 6 buffer))
    by (rewrite drop_drop; reflexivity).
  rewrite take_drop.
  replace (drop 6 buffer) with (drop 2 (drop 4 buffer))
    by (rewrite drop_drop; reflexivity).
  rewrite take_drop. apply take_drop.
Qed.

(** The buffer of a branch is its 10-byte header and its history. *)
Lemma length_serialize b :
  length (Common.serialize b)
  = (10 + length (Serialize (Common.history b)))%nat.
Proof.
  unfold Common.serialize. rewrite !length_app, !length_le_bytes. lia.
Qed.

(** Reading back what was written (the buffer side of the round trip,
    kept apart for the transfers below). *)
Lemma deserialize_serialize b :
  Common.well_typed b ->
  Deserialize (Serialize (Common.history b)) = Common.history b ->
  Common.deserialize (Common.serialize b) = Some b.
Proof.
  intros (Hlb & Hub & Hdepth) Hhist.
  pose proof (header_split (Wire.le_bytes 4 (Common.lb b))
                (Wire.le_bytes 2 (Common.ub b))
                (Wire.le_bytes 4 (Common.depth b))
                (Serialize (Common.history b))
                (length_le_bytes _ _) (length_le_bytes _ _)
                (length_le_bytes _ _)) as (T1 & T2 & T3 & T4).
  pose proof (length_serialize b) as Hlen.
  unfold Common.deserialize.
  destruct (Nat.ltb_spec (length (Common.serialize b)) 10) as [|_]; [lia|].
  unfold Common.serialize. rewrite T1, T2, T3, T4, Hhist.
  rewrite !to_int_le_bytes, to_ushort_le_bytes by assumption.
  destruct b; reflexivity.
Qed.

End BufferSide.

(** ** Witness reconstruction *)

Lemma vec_get_lookup {A : Type} (v : list A) (i : Z) :
  0 <= i -> vec_get v i = v !! Z.to_nat i.
Proof. intros Hi. unfold vec_get. destruct (Z.ltb_spec i 0); [lia|easy]. Qed.

Lemma vec_set_in_range {A : Type} (v : list A) (i : Z) (x : A) :
  0 <= i < Z.of_nat (length v) ->
  vec_set v i x = Some (<[Z.to_nat i := x]> v).
Proof.
  intros Hi. unfold vec_set.
  destruct (Z.ltb_spec i 0); [lia|].
  destruct (Z.leb_spec (Z.of_nat (length v)) i); [lia|]. reflexivity.
Qed.

Lemma vec_set_out_of_range {A : Type} (v : list A) (i : Z) (x : A) :
  i < 0 \/ Z.of_nat (length v) <= i -> vec_set v i x = None.
Proof.
  intros Hi. unfold vec_set.
  destruct (Z.ltb_spec i 0); [reflexivity|].
  destruct (Z.leb_spec (Z.of_nat (length v)) i); [reflexivity|lia].
Qed.

(** The inner loop of [ColorInitialGraph]: every vertex merged into
    [vertex] takes the colour [vertex] has, and no other entry moves. *)
Lemma merged_loop (vertex c : Z) (ms : list Z) (fc : list Z) :
  0 <= vertex ->
  fc !! Z.to_nat vertex = Some c ->
  (forall m, m ∈ ms -> 0 <= m < Z.of_nat (length fc)) ->
  exists fc',
    for_each (fun fc' merged =>
                cv ← vec_get fc' vertex; vec_set fc' merged cv) ms fc
      = Some fc'
    /\ length fc' = length fc
    /\ fc' !! Z.to_nat vertex = Some c
    /\ (forall m, m ∈ ms -> fc' !! Z.to_nat m = Some c)
    /\ (forall i, (forall m, m ∈ ms -> Z.to_nat m <> i) -> fc' !! i = fc !! i).
Proof.
  intros Hv. revert fc. induction ms as [|m ms IH]; intros fc Hc Hms.
  - exists fc. cbn [for_each]. repeat split; [exact Hc|..].
    intros m Hm. now apply elem_of_nil in Hm.
  - assert (Hm : 0 <= m < Z.of_nat (length fc)) by (apply Hms; left).
    cbn [for_each]. rewrite (vec_get_lookup fc vertex Hv), Hc.
    cbn [mbind option_bind]. rewrite (vec_set_in_range fc m c Hm).
    cbn [mbind option_bind].
    destruct (IH (<[Z.to_nat m := c]> fc)) as (fc' & Hrun & Hlen & Hv' & Hin & Hout).
    { destruct (decide (Z.to_nat m = Z.to_nat vertex)) as [->|Hne].
      - apply list_lookup_insert_eq. apply lookup_lt_Some in Hc. exact Hc.
      - rewrite list_lookup_insert_ne by exact Hne. exact Hc. }
    { intros m' Hm'. rewrite length_insert. apply Hms. now right. }
    exists fc'. split; [exact Hrun|]. rewrite length_insert in Hlen.
    split; [exact Hlen|]. split; [exact Hv'|]. split.
    + intros m' Hm'. apply elem_of_cons in Hm' as [->|Hm']; [|now apply Hin].
      destruct (decide (m ∈ ms)) as [Hmem|Hnot]; [now apply Hin|].
      rewrite Hout.
      * apply list_lookup_insert_eq. lia.
      * intros m' Hm' Heq. apply Hnot.
        assert (Hm'r : 0 <= m' < Z.of_nat (length fc)) by (apply Hms; now right).
        assert (m' = m) as -> by lia.
        exact Hm'.
    + intros i Hi. rewrite Hout.
      * apply list_lookup_insert_ne. apply Hi. left.
      * intros m' Hm'. apply Hi. now right.
Qed.

(** The outer loop, over the surviving vertices. *)
Lemma vertices_loop (opt : list Z) (Mf : Z -> list Z) (vs : list Z)
    (fc : list Z) :
  (forall v, v ∈ vs ->
     0 <= v < Z.of_nat (length fc) /\ is_Some (opt !! Z.to_nat v)) ->
  (forall v m, v ∈ vs -> m ∈ Mf v -> 0 <= m < Z.of_nat (length fc)) ->
  NoDup (flat_map (fun v => v :: Mf v) vs) ->
  exists fc',
    for_each (fun fc vertex =>
        c ← vec_get opt vertex;
        fc1 ← vec_set fc vertex c;
        for_each (fun fc' merged =>
            cv ← vec_get fc' vertex;
            vec_set fc' merged cv)
          (Mf vertex) fc1)
      vs fc = Some fc'
    /\ length fc' = length fc
    /\ (forall v, v ∈ vs ->
          fc' !! Z.to_nat v = opt !! Z.to_nat v
          /\ forall m, m ∈ Mf v -> fc' !! Z.to_nat m = opt !! Z.to_nat v)
    /\ (forall i, (forall x, x ∈ flat_map (fun v => v :: Mf v) vs ->
                             Z.to_nat x <> i) ->
                  fc' !! i = fc !! i).
Proof.
  revert fc. induction vs as [|v vs IH]; intros fc Hvs Hms Hnd.
  - exists fc. cbn [for_each]. split; [reflexivity|]. split; [reflexivity|].
    split; [|reflexivity]. intros x Hx. now apply elem_of_nil in Hx.
  - destruct (Hvs v ltac:(left)) as (Hv & c & Hc).
    cbn [flat_map] in Hnd. apply NoDup_cons in Hnd as (Hfresh & Hnd).
    apply NoDup_app in Hnd as (_ & Hdisj & Hnd).
    assert (Hnonneg : forall x, x ∈ flat_map (fun v => v :: Mf v) vs -> 0 <= x).
    { intros x Hx. apply list_elem_of_In, in_flat_map in Hx as (v' & Hv' & Hx).
      apply list_elem_of_In in Hv'. apply list_elem_of_In in Hx.
      apply elem_of_cons in Hx as [->|Hx].
      - apply (Hvs v'). now right.
      - apply (Hms v' x); [now right|exact Hx]. }
    cbn [for_each]. rewrite (vec_get_lookup opt v (proj1 Hv)), Hc.
    cbn [mbind option_bind]. rewrite (vec_set_in_range fc v c Hv).
    cbn [mbind option_bind].
    destruct (merged_loop v c (Mf v) (<[Z.to_nat v := c]> fc) (proj1 Hv))
      as (fc2 & Hrun2 & Hlen2 & Hv2 & Hin2 & Hout2).
    { apply list_lookup_insert_eq. lia. }
    { intros m Hm. rewrite length_insert. apply (Hms v m); [left|exact Hm]. }
    rewrite Hrun2. cbn [mbind option_bind].
    rewrite length_insert in Hlen2.
    destruct (IH fc2) as (fc' & Hrun & Hlen & Hin & Hout).
    { intros v' Hv'. rewrite Hlen2. apply Hvs. now right. }
    { intros v' m Hv' Hm. rewrite Hlen2. apply (Hms v' m); [now right|exact Hm]. }
    { exact Hnd. }
    exists fc'. split; [exact Hrun|]. split; [congruence|]. split.
    + intros v' Hv'. apply elem_of_cons in Hv' as [->|Hv']; [|now apply Hin].
      assert (Hkeep : forall x, (x = v \/ x ∈ Mf v) -> 0 <= x ->
                fc' !! Z.to_nat x = fc2 !! Z.to_nat x).
      { intros x Hx Hx0. apply Hout. intros y Hy Heq.
        assert (y = x) as -> by (specialize (Hnonneg y Hy); lia).
        destruct Hx as [->|Hx].
        - apply Hfresh. apply elem_of_app. now right.
        - apply (Hdisj x); assumption. }
      split.
      * rewrite Hkeep by (auto; lia). congruence.
      * intros m Hm. rewrite Hkeep.
        -- rewrite Hc. now apply Hin2.
        -- now right.
        -- apply (Hms v m); [left|exact Hm].
    + intros i Hi. rewrite Hout.
      * rewrite Hout2.
        -- apply list_lookup_insert_ne. apply Hi. cbn [flat_map]. left.
        -- intros m Hm. apply Hi. cbn [flat_map]. right.
           apply elem_of_app. now left.
      * intros x Hx. apply Hi. cbn [flat_map]. right.
        apply elem_of_app. now right.
Qed.

Section Reconstruction.

Context {Graph : Type} {ops : GraphOps Graph} {codec : HistoryCodec (GraphPtr Graph)}.

(** X3.  [ColorInitialGraph] hands [SetFullColoring] a vector of
    [GetNumVertices() + 1] entries in which every surviving vertex of
    the branch has the colour it has in the branch's graph, every vertex
    merged into it has that same colour, and every other entry is 0.
    (The labels have to be distinct and within the vector, and the
    surviving ones within the branch's colouring.) *)
Theorem ColorInitialGraph_reconstructs (target G : Graph)
    (optimal_branch : Branch Graph) :
  g optimal_branch = Some G ->
  (forall v, v ∈ GetVertices G ->
     0 <= v <= Z.of_N (GetNumVertices target)
     /\ is_Some (GetFullColoring G !! Z.to_nat v)) ->
  (forall v m, v ∈ GetVertices G -> m ∈ GetMergedVertices G v ->
     0 <= m <= Z.of_N (GetNumVertices target)) ->
  NoDup (flat_map (fun v => v :: GetMergedVertices G v) (GetVertices G)) ->
  exists colored,
    ColorInitialGraph target optimal_branch
      = Some (SetFullColoring colored target)
    /\ length colored = (N.to_nat (GetNumVertices target) + 1)%nat
    /\ (forall v, v ∈ GetVertices G ->
          colored !! Z.to_nat v = GetFullColoring G !! Z.to_nat v
          /\ forall m, m ∈ GetMergedVertices G v ->
               colored !! Z.to_nat m = GetFullColoring G !! Z.to_nat v)
    /\ (forall i, (i <= N.to_nat (GetNumVertices target))%nat ->
          (forall x, x ∈ flat_map (fun v => v :: GetMergedVertices G v)
                                   (GetVertices G) -> Z.to_nat x <> i) ->
          colored !! i = Some 0).
Proof.
  intros HG Hvs Hms Hnd. unfold ColorInitialGraph. rewrite HG.
  cbn [mbind option_bind].
  set (fc := replicate (N.to_nat (GetNumVertices target) + 1) 0).
  assert (Hlen0 : length fc = (N.to_nat (GetNumVertices target) + 1)%nat)
    by apply length_replicate.
  destruct (vertices_loop (GetFullColoring G) (GetMergedVertices G)
              (GetVertices G) fc)
    as (colored & Hrun & Hlen & Hin & Hout).
  { intros v Hv. destruct (Hvs v Hv) as (Hr & Hs). split; [lia|exact Hs]. }
  { intros v m Hv Hm. specialize (Hms v m Hv Hm). lia. }
  { exact Hnd. }
  exists colored. rewrite Hrun. split; [reflexivity|].
  split; [congruence|]. split; [exact Hin|].
  intros i Hi Hfree. rewrite (Hout i Hfree).
  apply lookup_replicate_2. lia.
Qed.

End Reconstruction.

(** Reading a field of a process through the setters. *)
Tactic Notation "proc_fields" :=
  cbn [set_queue UpdateCurrentBest set_current_best store_best_ub
       store_terminate_flag set_graph set_optimum_time emit
       best_ub trace graph_to_color terminate_flag queue current_best
       optimum_time].

Tactic Notation "proc_fields" "in" hyp(H) :=
  cbn [set_queue UpdateCurrentBest set_current_best store_best_ub
       store_terminate_flag set_graph set_optimum_time emit
       best_ub trace graph_to_color terminate_flag queue current_best
       optimum_time] in H.

Section MoreSolverFacts.

Context {Graph : Type} {ops : GraphOps Graph} {strategies : Strategies Graph}
        {codec : HistoryCodec (GraphPtr Graph)}.
Implicit Types (q rest : BranchQueue Graph) (b m top : Branch Graph).
Implicit Types (s : Proc Graph) (w : Worker Graph).

(** ** Sending and receiving a branch *)

(** X4.  A branch sent while [terminate_flag] is down goes out as two
    messages on the same tag, first the size, which is 10 plus the
    length of the serialised graph, then the buffer; and a [recvBranch]
    entered with [terminate_flag] down and completed by that buffer
    returns the branch that was sent.  A [recvBranch] entered with
    [terminate_flag] up receives nothing, whatever was sent: it cancels
    and returns [Branch()]. *)
Theorem branch_transfer b (dest source tag : Z) s s_recv :
  terminate_flag s = false ->
  terminate_flag s_recv = false ->
  Common.well_typed b ->
  Deserialize (Serialize (g b)) = g b ->
  trace (sendBranch b dest tag s)
  = trace s
      ++ [Send dest tag (P_int (10 + Z.of_nat (length (Serialize (g b)))));
          Send dest tag (P_bytes (Common.serialize b))]
  /\ recvBranch source tag (Some (Common.serialize b)) s_recv
     = Some (b, emit (branch_receipt source tag (Common.serialize b)) s_recv)
  /\ queue (sendBranch b dest tag s) = queue s
  /\ best_ub (sendBranch b dest tag s) = best_ub s
  /\ (forall s_up, terminate_flag s_up = true ->
        recvBranch source tag (Some (Common.serialize b)) s_up
        = Some (Branch_empty, emit [CancelRecv source tag] s_up)).
Proof.
  intros Hflag Hrecv Hwt Hcodec. unfold sendBranch. rewrite Hflag.
  cbn [emit trace queue best_ub]. rewrite length_serialize.
  rewrite Nat2Z.inj_add. split; [reflexivity|].
  split; [|split; [reflexivity|split; [reflexivity|]]].
  - unfold recvBranch.
    rewrite Hrecv, (deserialize_serialize b Hwt Hcodec). reflexivity.
  - intros s_up Hup. unfold recvBranch. rewrite Hup. reflexivity.
Qed.

(** ** The queue under the search loop *)

(** X5.  The queue is worked depth first: popping splits the queue
    into a branch no other is deeper than and the rest, losing and
    inventing nothing, and after a pass has pushed the two children of
    the branch it popped, the next pop returns one of those children. *)
Theorem depth_first_discipline q top rest (c1 c2 : Branch Graph) :
  pop_top q = Some (top, rest) ->
  Common.depth c1 = Common.depth top + 1 ->
  Common.depth c2 = Common.depth top + 1 ->
  q ≡ₚ top :: rest
  /\ (forall b, b ∈ q -> Common.depth b <= Common.depth top)
  /\ exists m rest',
       pop_top (push c2 (push c1 rest)) = Some (m, rest')
       /\ (m = c1 \/ m = c2)
       /\ push c2 (push c1 rest) ≡ₚ m :: rest'.
Proof.
  intros Hpop Hd1 Hd2.
  pose proof (pop_top_perm q top rest Hpop) as Hperm.
  pose proof (pop_top_max q top rest Hpop) as Hmax.
  split; [exact Hperm|]. split; [exact Hmax|].
  destruct (pop_top_is_Some c2 (push c1 rest)) as (m & rest' & Hnext).
  exists m, rest'. split; [exact Hnext|].
  split; [|now apply pop_top_perm].
  pose proof (pop_top_perm _ _ _ Hnext) as Hp.
  pose proof (pop_top_max _ _ _ Hnext) as Hm.
  assert (Hin : m ∈ push c2 (push c1 rest)).
  { rewrite Hp. left. }
  unfold push in *.
  apply elem_of_cons in Hin as [->|Hin]; [now right|].
  apply elem_of_cons in Hin as [->|Hin]; [now left|].
  exfalso.
  assert (Hle : Common.depth m <= Common.depth top).
  { apply Hmax. rewrite Hperm. now right. }
  specialize (Hm c1 ltac:(right; left)). lia.
Qed.



(** ** What a search pass keeps *)




(** ** The steal client *)

Lemma choose_target_from (rand : nat -> Z) (my_rank p : Z) (k : nat) :
  0 < p -> (forall i, 0 <= rand i) ->
  forall (fuel calls : nat) (target : Z),
    (k < fuel)%nat ->
    Z.rem (rand (calls + k)%nat) p <> my_rank ->
    target = my_rank ->
    exists t c,
      choose_target fuel rand my_rank p target calls = Some (t, c)
      /\ t <> my_rank /\ 0 <= t < p
      /\ (calls < c <= calls + k + 1)%nat
      /\ t = Z.rem (rand (c - 1)%nat) p
      /\ (forall i, (calls <= i < c - 1)%nat -> Z.rem (rand i) p = my_rank).
Proof.
  intros Hp Hrand. induction k as [|k IH]; intros fuel calls target Hk Hne ->.
  - destruct fuel as [|fuel]; [lia|]. cbn [choose_target].
    rewrite Z.eqb_refl. rewrite Nat.add_0_r in Hne.
    exists (Z.rem (rand calls) p), (S calls).
    split.
    + destruct fuel; cbn [choose_target];
        now destruct (Z.eqb_spec (Z.rem (rand calls) p) my_rank).
    + split; [exact Hne|]. split; [|split; [lia|]].
      * apply Z.rem_bound_pos; [apply Hrand|exact Hp].
      * replace (S calls - 1)%nat with calls by lia.
        split; [reflexivity|]. intros i Hi. lia.
  - destruct fuel as [|fuel]; [lia|]. cbn [choose_target].
    rewrite Z.eqb_refl.
    destruct (Z.eq_dec (Z.rem (rand calls) p) my_rank) as [Heq|Hdiff].
    + destruct (IH fuel (S calls) (Z.rem (rand calls) p))
        as (t & c & Hrun & Ht & Hrange & Hc & Hlast & Hbefore);
        [lia| |exact Heq|].
      { replace (S calls + k)%nat with (calls + S k)%nat by lia. exact Hne. }
      exists t, c. split; [exact Hrun|]. split; [exact Ht|].
      split; [exact Hrange|]. split; [lia|]. split; [exact Hlast|].
      intros i Hi. destruct (Nat.eq_dec i calls) as [->|Hi'];
        [exact Heq|apply Hbefore; lia].
    + exists (Z.rem (rand calls) p), (S calls). split.
      * destruct fuel; cbn [choose_target];
          now destruct (Z.eqb_spec (Z.rem (rand calls) p) my_rank).
      * split; [exact Hdiff|]. split; [|split; [lia|]].
        -- apply Z.rem_bound_pos; [apply Hrand|exact Hp].
        -- replace (S calls - 1)%nat with calls by lia.
           split; [reflexivity|]. intros i Hi. lia.
Qed.

(** X9.  The victim of a steal is never the caller and always a rank
    of the communicator: as soon as one of the next [fuel] values of
    [rand()] names another rank, the loop stops on a target different
    from [my_rank] and within [0 .. p-1], having called [rand()] at
    least once.  The target is the value of the last call, reduced
    modulo [p], and every call before it named the caller. *)
Theorem choose_target_picks_another_rank (fuel : nat) (rand : nat -> Z)
    (my_rank p : Z) (calls k : nat) :
  0 < p ->
  (forall i, 0 <= rand i) ->
  (k < fuel)%nat ->
  Z.rem (rand (calls + k)%nat) p <> my_rank ->
  exists t c,
    choose_target fuel rand my_rank p my_rank calls = Some (t, c)
    /\ t <> my_rank /\ 0 <= t < p
    /\ (calls < c <= calls + k + 1)%nat
    /\ t = Z.rem (rand (c - 1)%nat) p
    /\ (forall i, (calls <= i < c - 1)%nat -> Z.rem (rand i) p = my_rank).
Proof.
  intros Hp Hrand Hk Hne.
  exact (choose_target_from rand my_rank p k Hp Hrand fuel calls my_rank
           Hk Hne eq_refl).
Qed.

(** What one steal attempt leaves. *)
Lemma request_work_effect (fuel : nat) (rand : nat -> Z) (my_rank p : Z)
    (reply : Reply) w s ok w' s' :
  request_work fuel rand my_rank p reply w s = Some (ok, w', s') ->
  exists mid,
    trace s' = trace s ++ mid
    /\ Forall not_idle_report mid
    /\ best_ub s' = best_ub s
    /\ graph_to_color s' = graph_to_color s
    /\ ((ok = false /\ queue s' = queue s
         /\ (terminate_flag s' = terminate_flag s \/ terminate_flag s' = true))
        \/ (ok = true /\ terminate_flag s' = true
            /\ queue s' = Branch_empty :: queue s)
        \/ (ok = true /\ terminate_flag s' = terminate_flag s
            /\ exists b, queue s' = b :: queue s /\ current w' = b)).
Proof.
  unfold request_work.
  destruct (choose_target fuel rand my_rank p my_rank (rand_calls w))
    as [[target calls]|]; [|discriminate].
  cbn [mbind option_bind].
  assert (Hreq : not_idle_report (Send target TAG_WORK_REQUEST P_empty))
    by (intros v; discriminate).
  destruct reply as [|response arrival].
  - intros [= <- <- <-]. eexists. proc_fields.
    rewrite <- app_assoc. split; [reflexivity|].
    split; [repeat constructor; try exact Hreq; intros v; discriminate|].
    split; [reflexivity|]. split; [reflexivity|]. left. auto.
  - destruct (Z.eqb_spec response 1) as [->|Hno].
    + unfold recvBranch. proc_fields.
      destruct (terminate_flag s) eqn:Hup.
      { cbn [mbind option_bind]. intros [= <- <- <-]. eexists.
        unfold push. proc_fields.
        rewrite <- !app_assoc. split; [reflexivity|].
        split; [repeat constructor; try exact Hreq; intros v; discriminate|].
        split; [reflexivity|]. split; [reflexivity|]. right. left.
        repeat split; proc_fields; congruence. }
      destruct arrival as [buffer|].
      * destruct (Common.deserialize buffer) as [b|]; [|discriminate].
        cbn [mbind option_bind]. intros [= <- <- <-]. eexists.
        unfold branch_receipt, push. proc_fields.
        rewrite <- !app_assoc. split; [reflexivity|].
        split; [repeat constructor; try exact Hreq; intros v; discriminate|].
        split; [reflexivity|]. split; [reflexivity|]. right. right.
        split; [reflexivity|]. split; [proc_fields; congruence|eauto].
      * cbn [mbind option_bind]. intros [= <- <- <-]. eexists.
        unfold push. proc_fields.
        rewrite <- !app_assoc. split; [reflexivity|].
        split; [repeat constructor; try exact Hreq; intros v; discriminate|].
        split; [reflexivity|]. split; [reflexivity|]. right. left.
        repeat split; proc_fields; congruence.
    + intros [= <- <- <-]. eexists. proc_fields.
      rewrite <- app_assoc. split; [reflexivity|].
      split; [repeat constructor; try exact Hreq; intros v; discriminate|].
      split; [reflexivity|]. split; [reflexivity|]. left. auto.
Qed.

(** What the steal loop leaves when it ends. *)
Lemma steal_loop_effect (fuel : nat) (rand : nat -> Z) (my_rank p : Z)
    (replies : list Reply) :
  forall w s w' s',
    steal_loop fuel rand my_rank p replies w s = Some (w', s') ->
    exists mid,
      trace s' = trace s ++ mid
      /\ Forall not_idle_report mid
      /\ best_ub s' = best_ub s
      /\ graph_to_color s' = graph_to_color s
      /\ ((terminate_flag s' = true
           /\ (queue s' = queue s \/ queue s' = Branch_empty :: queue s))
          \/ (terminate_flag s' = false
              /\ exists b, queue s' = b :: queue s)).
Proof.
  induction replies as [|r replies IH]; intros w s w' s' Hrun.
  - cbn [steal_loop] in Hrun. destruct (terminate_flag s) eqn:Hf;
      [|discriminate].
    injection Hrun as <- <-. exists []. rewrite app_nil_r.
    repeat split; [constructor|]. left. auto.
  - cbn [steal_loop] in Hrun. destruct (terminate_flag s) eqn:Hf.
    + injection Hrun as <- <-. exists []. rewrite app_nil_r.
      repeat split; [constructor|]. left. auto.
    + destruct (request_work fuel rand my_rank p r w s)
        as [[[ok w1] s1]|] eqn:Hreq; [|discriminate].
      cbn [mbind option_bind] in Hrun.
      destruct (request_work_effect _ _ _ _ _ _ _ _ _ _ Hreq)
        as (mid1 & Htr1 & Hmid1 & Hub1 & Hg1 & Hcase).
      destruct ok.
      * injection Hrun as <- <-. exists mid1.
        split; [exact Htr1|]. split; [exact Hmid1|].
        split; [exact Hub1|]. split; [exact Hg1|].
        destruct Hcase as [(Hok & _)|[(_ & Hfl & Hq)|(_ & Hfl & b & Hq & _)]];
          [discriminate| |].
        -- left. auto.
        -- right. rewrite Hfl, Hf. eauto.
      * destruct Hcase as [(_ & Hq1 & Hfl1)|[(Hok & _)|(Hok & _)]];
          [|discriminate|discriminate].
        destruct (IH _ _ _ _ Hrun)
          as (mid2 & Htr2 & Hmid2 & Hub2 & Hg2 & Hcase2).
        exists (mid1 ++ mid2). rewrite Htr2, Htr1, app_assoc.
        split; [reflexivity|].
        split; [apply Forall_app; auto|].
        split; [congruence|]. split; [congruence|].
        rewrite <- Hq1. exact Hcase2.
Qed.

(** X10.  The idle path reports to rank 0 in pairs.  Entered with
    [terminate_flag] down, whenever it ends it has first posted
    [idle = 1] to rank 0; it ends by [continue] exactly when
    [terminate_flag] is still down, and then a stolen branch has been
    pushed and [idle = 0] is the last message posted; it ends by
    [break] exactly when [terminate_flag] is up, and then no [idle = 0]
    is posted.  In between it posts no idle report, and it never
    changes [_best_ub] or the output graph. *)
Theorem idle_reports_are_paired (fuel : nat) (rand : nat -> Z)
    (my_rank p : Z) (replies : list Reply) w s flow w' s' :
  idle_path fuel rand my_rank p replies w s = Some (flow, w', s') ->
  exists mid,
    Forall not_idle_report mid
    /\ best_ub s' = best_ub s
    /\ graph_to_color s' = graph_to_color s
    /\ ((flow = Continue /\ terminate_flag s' = false
         /\ trace s' = trace s ++ Send 0 TAG_IDLE (P_int 1) :: mid
                         ++ [Send 0 TAG_IDLE (P_int 0)]
         /\ exists b, queue s' = b :: queue s)
        \/ (flow = Break /\ terminate_flag s' = true
            /\ trace s' = trace s ++ Send 0 TAG_IDLE (P_int 1) :: mid
            /\ (queue s' = queue s \/ queue s' = Branch_empty :: queue s))).
Proof.
  intros Hrun. unfold idle_path in Hrun.
  destruct (steal_loop fuel rand my_rank p replies w
              (emit [Send 0 TAG_IDLE (P_int 1)] s))
    as [[w1 s1]|] eqn:Hloop; [|discriminate].
  cbn [mbind option_bind] in Hrun.
  destruct (steal_loop_effect _ _ _ _ _ _ _ _ _ Hloop)
    as (mid & Htr & Hmid & Hub & Hg & Hcase).
  proc_fields in Htr. proc_fields in Hub. proc_fields in Hg.
  proc_fields in Hcase.
  exists mid. split; [exact Hmid|].
  destruct Hcase as [(Hfl & Hq)|(Hfl & b & Hq)]; rewrite Hfl in Hrun;
    injection Hrun as <- <- <-; proc_fields.
  - split; [exact Hub|]. split; [exact Hg|]. right.
    split; [reflexivity|]. split; [exact Hfl|].
    split; [|exact Hq]. rewrite Htr, <- app_assoc. reflexivity.
  - split; [exact Hub|]. split; [exact Hg|]. left.
    split; [reflexivity|]. split; [exact Hfl|].
    split; [|eauto]. rewrite Htr, <- !app_assoc. reflexivity.
Qed.

(** X11.  A steal moves the top branch.  When the victim's employer
    answers the thief with more than one branch queued, and
    [terminate_flag] is down on both sides, what the employer posts
    (the response 1, the size, the bytes) is what completes the thief's
    [request_work]: the thief returns [true] with a branch pushed that
    is the one the victim popped, a deepest one of the victim's queue,
    and the victim keeps exactly the others. *)
Theorem steal_moves_the_top_branch (fuel : nat) (rand : nat -> Z)
    (thief victim p : Z) (calls : nat) w (victim_s thief_s : Proc Graph) :
  (1 < length (queue victim_s))%nat ->
  terminate_flag victim_s = false ->
  terminate_flag thief_s = false ->
  (forall b, b ∈ queue victim_s ->
     Common.well_typed b /\ Deserialize (Serialize (g b)) = g b) ->
  choose_target fuel rand thief p thief (rand_calls w) = Some (victim, calls) ->
  exists branch buffer w' thief_s',
    buffer = Common.serialize branch
    /\ trace (employer_answer thief victim_s)
       = trace victim_s
           ++ [Send thief TAG_WORK_RESPONSE (P_int 1);
               Send thief TAG_WORK_STEALING (P_int (Z.of_nat (length buffer)));
               Send thief TAG_WORK_STEALING (P_bytes buffer)]
    /\ request_work fuel rand thief p (Response 1 (Some buffer)) w thief_s
       = Some (true, w', thief_s')
    /\ trace thief_s'
       = trace thief_s
           ++ [Send victim TAG_WORK_REQUEST P_empty;
               Recv victim TAG_WORK_RESPONSE (P_int 1);
               Recv victim TAG_WORK_STEALING (P_int (Z.of_nat (length buffer)));
               Recv victim TAG_WORK_STEALING (P_bytes buffer)]
    /\ queue thief_s' = branch :: queue thief_s
    /\ queue victim_s ≡ₚ branch :: queue (employer_answer thief victim_s)
    /\ (forall b, b ∈ queue victim_s -> Common.depth b <= Common.depth branch).
Proof.
  intros Hlen Hflag Hthief Hgood Htarget.
  destruct (queue victim_s) as [|b0 q0] eqn:Eq; [simpl in Hlen; lia|].
  destruct (pop_top_is_Some b0 q0) as (branch & rest & Hpop).
  pose proof (pop_top_perm _ _ _ Hpop) as Hperm.
  pose proof (pop_top_max _ _ _ Hpop) as Hmax.
  assert (Hin : branch ∈ b0 :: q0) by (rewrite Hperm; left).
  destruct (Hgood branch Hin) as (Hwt & Hcodec).
  exists branch, (Common.serialize branch).
  unfold request_work. rewrite Htarget. cbn [mbind option_bind Z.eqb].
  unfold recvBranch. proc_fields.
  rewrite Hthief, (deserialize_serialize branch Hwt Hcodec).
  cbn [mbind option_bind]. do 2 eexists.
  split; [reflexivity|].
  unfold employer_answer. rewrite Eq.
  destruct (Nat.ltb_spec 1 (length (b0 :: q0))) as [_|]; [|lia].
  rewrite Hpop. unfold sendBranch. proc_fields. rewrite Hflag.
  unfold branch_receipt, push. proc_fields.
  rewrite <- !app_assoc.
  split; [reflexivity|]. split; [reflexivity|].
  proc_fields. rewrite <- !app_assoc.
  split; [reflexivity|]. split; [reflexivity|].
  split; [exact Hperm|exact Hmax].
Qed.

(** X12.  The employer never gives its last branch away: a queue
    that holds a branch still holds one after any answer, an answer
    takes at most one branch, and it touches neither [_best_ub] nor
    [_current_best] nor [terminate_flag] nor the output graph. *)
Theorem employer_keeps_a_branch (destination_rank : Z) s :
  ((0 < length (queue s))%nat ->
   (0 < length (queue (employer_answer destination_rank s)))%nat)
  /\ (length (queue s) - 1
      <= length (queue (employer_answer destination_rank s))
      <= length (queue s))%nat
  /\ best_ub (employer_answer destination_rank s) = best_ub s
  /\ current_best (employer_answer destination_rank s) = current_best s
  /\ terminate_flag (employer_answer destination_rank s) = terminate_flag s
  /\ graph_to_color (employer_answer destination_rank s) = graph_to_color s.
Proof.
  unfold employer_answer.
  destruct (Nat.ltb_spec 1 (length (queue s))) as [Hmany|Hfew].
  - destruct (pop_top (queue s)) as [[branch rest]|] eqn:Hpop.
    + pose proof (Permutation_length (pop_top_perm _ _ _ Hpop)) as Hl.
      cbn [length] in Hl.
      unfold sendBranch. proc_fields.
      destruct (terminate_flag s) eqn:Hf; proc_fields; rewrite ?Hf;
        repeat split; lia.
    + repeat split; lia.
  - proc_fields. repeat split; lia.
Qed.

(** ** The idle table *)

Lemma fold_insert_length (msgs : list (Z * Z)) (l : list Z) :
  length (fold_left (fun l msg => <[Z.to_nat msg.1 := msg.2]> l) msgs l)
  = length l.
Proof.
  revert l. induction msgs as [|e msgs IH]; intros l; [reflexivity|].
  cbn [fold_left]. rewrite IH. apply length_insert.
Qed.

Lemma fold_insert_other (msgs : list (Z * Z)) (l : list Z) (i : nat) :
  (forall e : Z * Z, e ∈ msgs -> Z.to_nat e.1 <> i) ->
  fold_left (fun l msg => <[Z.to_nat msg.1 := msg.2]> l) msgs l !! i = l !! i.
Proof.
  revert l. induction msgs as [|e msgs IH]; intros l Hno; [reflexivity|].
  cbn [fold_left]. rewrite IH by (intros e' He'; apply Hno; now right).
  apply list_lookup_insert_ne. apply Hno. left.
Qed.

(** X13.  Draining the idle messages is last-writer-wins per source:
    when every source is a rank of the table the drain completes, the
    table keeps its length, the slot of a source holds the value of the
    last message from that source, and the slot of a rank that sent
    nothing is as before. *)
Theorem drain_keeps_last_report (msgs : list (Z * Z)) (t : Terminator) s :
  (forall source v, (source, v) ∈ msgs ->
     0 <= source < Z.of_nat (length (idle_status t))) ->
  exists t' s',
    drain_idle msgs t s = Some (t', s')
    /\ length (idle_status t') = length (idle_status t)
    /\ (forall pre post source v,
          msgs = pre ++ (source, v) :: post ->
          (forall e : Z * Z, e ∈ post -> e.1 <> source) ->
          idle_status t' !! Z.to_nat source = Some v)
    /\ (forall i, (forall e : Z * Z, e ∈ msgs -> Z.to_nat e.1 <> i) ->
          idle_status t' !! i = idle_status t !! i).
Proof.
  intros Hsrc.
  destruct (drain_idle_defined msgs t s Hsrc) as (t' & s' & Hrun & Hst & _).
  exists t', s'. split; [exact Hrun|]. rewrite Hst.
  split; [apply fold_insert_length|]. split.
  - intros pre post source v -> Hlast.
    rewrite fold_left_app. cbn [fold_left fst snd].
    assert (Hin : 0 <= source < Z.of_nat (length (idle_status t))).
    { apply (Hsrc source v). apply elem_of_app. right. left. }
    rewrite fold_insert_other.
    + apply list_lookup_insert_eq. rewrite fold_insert_length. lia.
    + intros [source' v'] Hm Heq. cbn [fst] in Heq.
      assert (0 <= source' < Z.of_nat (length (idle_status t))).
      { apply (Hsrc source' v'). apply elem_of_app. right. now right. }
      apply (Hlast _ Hm). cbn [fst]. lia.
  - intros i Hno. now apply fold_insert_other.
Qed.

(** What a drain leaves, whenever it completes. *)
Lemma drain_idle_effect (msgs : list (Z * Z)) :
  forall (t : Terminator) s t' s',
    drain_idle msgs t s = Some (t', s') ->
    solution_found t' = solution_found t
    /\ timeout_signal t' = timeout_signal t
    /\ best_ub s' = best_ub s
    /\ graph_to_color s' = graph_to_color s
    /\ terminate_flag s' = terminate_flag s
    /\ queue s' = queue s.
Proof.
  unfold drain_idle.
  induction msgs as [|[source v] msgs IH]; intros t s t' s' Hrun.
  - injection Hrun as <- <-. repeat split.
  - cbn [for_each drain_step] in Hrun.
    destruct (vec_set (idle_status t) source v) as [status|]; [|discriminate].
    cbn [mbind option_bind] in Hrun.
    destruct (IH _ _ _ _ Hrun) as (H1 & H2 & H3 & H4 & H5 & H6).
    proc_fields in H3. proc_fields in H4. proc_fields in H5.
    proc_fields in H6. auto 10.
Qed.

(** ** Leaving the terminator loop *)

(** X14.  Rank 0 raises [terminate_flag] exactly when it leaves the
    terminator loop.  Whenever a pass completes, either it ends the
    loop with [terminate_flag] up and [solution_found] or
    [timeout_signal] set, or it goes on with both unset and
    [terminate_flag] as it was; and a pass that goes on saw no solution
    message and no timeout and changed neither [_best_ub] nor the
    output graph nor the queue. *)
Theorem coordinator_exit_raises_flag (p timeout_seconds : Z) (tk : Tick)
    (t : Terminator) s flow t' s' :
  coordinator_iteration p timeout_seconds tk t s = Some (flow, t', s') ->
  (flow = Break /\ terminate_flag s' = true
   /\ (solution_found t' <> 0 \/ timeout_signal t' <> 0))
  \/ (flow = Continue /\ terminate_flag s' = terminate_flag s
      /\ solution_found t' = 0 /\ timeout_signal t' = 0
      /\ solution_msg tk = None /\ elapsed tk < timeout_seconds
      /\ best_ub s' = best_ub s
      /\ graph_to_color s' = graph_to_color s
      /\ queue s' = queue s).
Proof.
  intros Hrun. unfold coordinator_iteration in Hrun.
  destruct (coordinator_listen timeout_seconds tk t s) as [[t1 s1]|] eqn:Hl;
    [|discriminate].
  cbn [mbind option_bind] in Hrun. unfold after_broadcast in Hrun.
  destruct (if timeout_signal t1 =? 0 then Some s1
            else on_timeout 0 p (timeout_buffers tk) s1) as [s2|] eqn:Hto;
    [|discriminate].
  cbn [mbind option_bind] in Hrun.
  destruct (Z.eqb_spec (solution_found t1) 0) as [Hsf|Hsf];
    destruct (Z.eqb_spec (timeout_signal t1) 0) as [Hts|Hts];
    cbn [andb] in Hrun; injection Hrun as <- <- <-;
    try (left; proc_fields; auto; fail).
  right. injection Hto as <-.
  unfold coordinator_listen in Hl.
  set (t0 := if elapsed tk >=? timeout_seconds
             then set_timeout_signal 1 t else t) in Hl.
  destruct (solution_msg tk) as [m|].
  - exfalso. unfold receive_solution in Hl.
    destruct (recvBranch (sol_source m) TAG_SOLUTION_FOUND
                (Some (sol_buffer m))
                (emit [Recv (sol_source m) TAG_SOLUTION_FOUND
                            (P_ushort (sol_declared m))]
                   (store_best_ub (sol_at_store m) s)))
      as [[ob s3]|]; [|discriminate].
    cbn [mbind option_bind] in Hl.
    destruct (ColorInitialGraph (graph_to_color s3) ob) as [colored|];
      [|discriminate].
    cbn [mbind option_bind] in Hl.
    match type of Hl with
    | context [drain_idle ?msgs ?tt ?ss] =>
        destruct (drain_idle msgs tt ss) as [[t4 s4]|] eqn:Hd;
          [|discriminate]
    end.
    cbn [mbind option_bind] in Hl.
    destruct (drain_idle_effect _ _ _ _ _ Hd) as (Hsf4 & _).
    cbn [set_solution_found solution_found] in Hsf4.
    destruct (all_idle t4); injection Hl as <- <-;
      cbn [set_solution_found solution_found] in Hsf; lia.
  - cbn [mbind option_bind] in Hl.
    destruct (drain_idle (idle_msgs tk) t0 s) as [[t3 s3]|] eqn:Hd;
      [|discriminate].
    cbn [mbind option_bind] in Hl.
    destruct (drain_idle_effect _ _ _ _ _ Hd)
      as (Hsf3 & Hts3 & Hub3 & Hg3 & Hf3 & Hq3).
    assert (Hlt : elapsed tk < timeout_seconds).
    { subst t0. destruct (Z.geb_spec (elapsed tk) timeout_seconds) as [Hge|Hlt];
        [|exact Hlt].
      cbn [set_timeout_signal timeout_signal] in Hts3.
      destruct (all_idle t3); injection Hl as <- <-;
        cbn [set_solution_found timeout_signal] in Hts; lia. }
    destruct (all_idle t3); injection Hl as <- <-.
    + cbn [set_solution_found solution_found] in Hsf. lia.
    + proc_fields. auto 12.
Qed.

(** ** The hand-over at timeout *)

(** X15.  The hand-over at timeout, when it goes well.  Provided
    that [terminate_flag] is down on every rank, that no other thread
    stores into the [_best_ub] of rank 0 while it collects, that the
    [_current_best] of some rank other than 0 has an [ub] at or below
    the [_best_ub] of rank 0, and that the root can be coloured from the
    [_current_best] of every such rank: every rank other than 0, on the
    broadcast [timeout_signal = 1], posts the size and the bytes of its
    [_current_best] to rank 0 on [TAG_TIMEOUT_SOLUTION], raises
    [terminate_flag] and leaves the loop without touching [_best_ub];
    and rank 0, completing its receives with those buffers, colours the
    output graph from the [_current_best] of a rank whose [ub] is least
    among the ranks and at most the [_best_ub] of rank 0.  (Without
    a rank at or below that [_best_ub] nothing is kept and the pass has
    no defined outcome.) *)
Theorem timeout_hand_over (p solution_found_0 : Z) (t : Terminator)
    (workers : Z -> Proc Graph) s :
  terminate_flag s = false ->
  (forall i, 1 <= i < p ->
     terminate_flag (workers i) = false
     /\ Common.well_typed (current_best (workers i))
     /\ Deserialize (Serialize (g (current_best (workers i))))
        = g (current_best (workers i))) ->
  (exists i, 1 <= i < p
             /\ Common.ub (current_best (workers i)) <= best_ub s) ->
  (forall i, 1 <= i < p ->
     is_Some (ColorInitialGraph (graph_to_color s)
                                (current_best (workers i)))) ->
  (forall i, 1 <= i < p ->
     exists t' s_i,
       follower_iteration i p solution_found_0 1 t (workers i)
         = Some (Break, t', s_i)
       /\ trace s_i
          = trace (workers i)
              ++ [Send 0 TAG_TIMEOUT_SOLUTION
                    (P_int (Z.of_nat (length (Common.serialize
                                                (current_best (workers i))))));
                  Send 0 TAG_TIMEOUT_SOLUTION
                    (P_bytes (Common.serialize (current_best (workers i))))]
       /\ terminate_flag s_i = true
       /\ best_ub s_i = best_ub (workers i))
  /\ exists j s',
       1 <= j < p
       /\ on_timeout 0 p
            (fun i => Common.serialize (current_best (workers i))) s
          = Some s'
       /\ ColorInitialGraph (graph_to_color s) (current_best (workers j))
          = Some (graph_to_color s')
       /\ Common.ub (current_best (workers j)) <= best_ub s
       /\ (forall i, 1 <= i < p ->
             Common.ub (current_best (workers j))
             <= Common.ub (current_best (workers i))).
Proof.
  intros Hdown Hgood Hsome Hcol. split.
  - intros i Hi. destruct (Hgood i Hi) as (Hflag & _).
    unfold follower_iteration, after_broadcast.
    cbn [set_timeout_signal set_solution_found timeout_signal solution_found
         Z.eqb].
    unfold on_timeout. destruct (Z.eqb_spec i 0) as [|_]; [lia|].
    cbn [mbind option_bind]. rewrite andb_false_r.
    do 2 eexists. split; [reflexivity|].
    unfold sendBranch. rewrite Hflag. proc_fields. auto.
  - destruct (on_timeout_coordinator p
                (fun i => Common.serialize (current_best (workers i)))
                (fun i => current_best (workers i)) s Hdown)
      as (j & s' & Hj & Hrun & Hcolored & Hle & Hmin & _).
    + intros i Hi. destruct (Hgood i Hi) as (_ & Hwt & Hcodec).
      now apply deserialize_serialize.
    + exact Hsome.
    + exact Hcol.
    + exists j, s'. auto.
Qed.

(** ** A gathering on its own *)

Lemma min_element_in (l : list Z) (m : Z) : min_element l = Some m -> m ∈ l.
Proof.
  revert m. induction l as [|x l IH]; intros m Hm; [discriminate|].
  cbn [min_element] in Hm. destruct (min_element l) as [m'|].
  - destruct (m' <? x); injection Hm as <-; [right; now apply IH|left].
  - injection Hm as <-. left.
Qed.

Lemma min_element_cons (x : Z) (l : list Z) : is_Some (min_element (x :: l)).
Proof.
  cbn [min_element]. destruct (min_element l) as [m|]; [|eauto].
  destruct (m <? x); eauto.
Qed.

(** X16.  A gathering that no store of another thread interleaves
    with installs the fleet minimum: the value stored is at most the
    [_best_ub] loaded and at most the contribution of every other rank,
    and it is one of these values; nothing else of the process changes.
    The slot of the rank itself in the gathered vector is the value it
    loaded. *)
Theorem gather_alone_installs_minimum (my_rank : Z) (contributions : list Z) s :
  0 <= my_rank < Z.of_nat (length contributions) ->
  exists s',
    gather_round my_rank contributions (fun x => x) s = Some s'
    /\ best_ub s' <= best_ub s
    /\ (forall i v, i <> Z.to_nat my_rank -> contributions !! i = Some v ->
          best_ub s' <= v)
    /\ (best_ub s' = best_ub s
        \/ exists i, i <> Z.to_nat my_rank
                     /\ contributions !! i = Some (best_ub s'))
    /\ queue s' = queue s
    /\ current_best s' = current_best s
    /\ trace s' = trace s.
Proof.
  intros Hr. unfold gather_round.
  set (all_best_ub := <[Z.to_nat my_rank := best_ub s]> contributions).
  assert (Hown : all_best_ub !! Z.to_nat my_rank = Some (best_ub s))
    by (apply list_lookup_insert_eq; lia).
  destruct (min_element all_best_ub) as [m|] eqn:E.
  - cbn [mbind option_bind]. eexists. split; [reflexivity|]. proc_fields.
    split.
    { apply (min_element_le _ _ _ E).
      apply (list_elem_of_lookup_2 _ _ _ Hown). }
    split.
    { intros i v Hi Hv. apply (min_element_le _ _ _ E).
      apply (list_elem_of_lookup_2 _ i). subst all_best_ub.
      rewrite list_lookup_insert_ne by congruence. exact Hv. }
    split; [|auto].
    apply min_element_in, list_elem_of_lookup in E as (i & Hi).
    destruct (decide (i = Z.to_nat my_rank)) as [->|Hne].
    + left. congruence.
    + right. exists i. split; [exact Hne|]. subst all_best_ub.
      rewrite list_lookup_insert_ne in Hi by congruence. exact Hi.
  - exfalso. destruct all_best_ub as [|x l] eqn:El; [discriminate|].
    destruct (min_element_cons x l) as (m & Hm). congruence.
Qed.

(** ** The BALANCED seeding *)

Lemma balanced_descent_depth (my_rank : Z) :
  forall (fuel : nat) (a b depth : Z) (G : Graph),
    a <= my_rank <= b ->
    b - a < Z.of_nat fuel ->
    exists G',
      balanced_descent fuel my_rank a b depth G
      = Some (depth + Z.log2_up (b - a + 1), G').
Proof.
  induction fuel as [|fuel IH]; intros a b depth G Hin Hfuel; [lia|].
  cbn [balanced_descent]. destruct (Z.eqb_spec a b) as [->|Hab].
  - exists G. replace (b - b + 1) with 1 by lia.
    change (Z.log2_up 1) with 0. now rewrite Z.add_0_r.
  - destruct (ChooseVertices G) as [u v].
    set (n := b - a + 1). assert (Hn : 2 <= n) by (subst n; lia).
    assert (Hq : Z.quot (b + 1 - a) 2 = n / 2).
    { rewrite Z.quot_div_nonneg by lia. subst n. f_equal. lia. }
    rewrite Hq.
    assert (Hhalf : 1 <= n / 2 /\ 2 * (n / 2) <= n < 2 * (n / 2) + 2).
    { pose proof (Z.div_mod n 2 ltac:(lia)).
      pose proof (Z.mod_pos_bound n 2 ltac:(lia)). lia. }
    assert (Hlog : Z.log2_up n = 1 + Z.log2_up (n - n / 2)).
    { destruct (Z.eq_dec (n - n / 2) 1) as [H1|H1].
      - assert (n = 2) as -> by lia. reflexivity.
      - assert (Hm : 1 < n - n / 2) by lia.
        pose proof (Z.log2_up_spec _ Hm) as Hs.
        pose proof (Z.log2_up_nonneg (n - n / 2)) as H0.
        assert (Hpos : 0 < Z.log2_up (n - n / 2))
          by (apply Z.log2_up_pos; lia).
        apply Z.log2_up_unique; [lia|].
        replace (Z.pred (1 + Z.log2_up (n - n / 2)))
          with (Z.succ (Z.pred (Z.log2_up (n - n / 2)))) by lia.
        rewrite Z.pow_succ_r by lia.
        replace (1 + Z.log2_up (n - n / 2))
          with (Z.succ (Z.log2_up (n - n / 2))) by lia.
        rewrite Z.pow_succ_r by lia. lia. }
    destruct (Z.geb_spec my_rank (a + n / 2)) as [Hright|Hleft].
    + destruct (IH (a + n / 2) b (depth + 1) (MergeVertices u v G))
        as (G' & Hrun); [lia|lia|].
      exists G'. rewrite Hrun, Hlog. do 2 f_equal.
      replace (b - (a + n / 2) + 1) with (n - n / 2) by (subst n; lia). lia.
    + destruct (IH a (b - n / 2) (depth + 1) (AddEdge u v G))
        as (G' & Hrun); [subst n; lia|lia|].
      exists G'. rewrite Hrun, Hlog. do 2 f_equal.
      replace (b - n / 2 - a + 1) with (n - n / 2) by (subst n; lia). lia.
Qed.

(** X17.  BALANCED seeds every rank at the same depth.  For [p]
    processes and any rank [0 <= my_rank < p] the descent ends, and the
    one branch the seeding queues is at depth [1 + ceil(log2 p)], with
    the bounds the strategies give for its graph; [_current_best] is
    that branch, and [_best_ub] is not stored by the seeding. *)
Theorem balanced_seed_depth (my_rank p : Z) s :
  0 <= my_rank < p ->
  exists G' s',
    balanced_seed my_rank p s = Some s'
    /\ queue s'
       = mkBranch (Some (Color G').1) (FindClique G') (Color G').2
                  (1 + Z.log2_up p) :: queue s
    /\ current_best s'
       = mkBranch (Some (Color G').1) (FindClique G') (Color G').2
                  (1 + Z.log2_up p)
    /\ best_ub s' = best_ub s
    /\ trace s' = trace s.
Proof.
  intros Hr. unfold balanced_seed.
  destruct (balanced_descent_depth my_rank (Z.to_nat p) 0 (p - 1) 1
              (graph_to_color s)) as (G' & Hrun); [lia|lia|].
  rewrite Hrun. cbn [mbind option_bind].
  replace (p - 1 - 0 + 1) with p by lia.
  exists G'. destruct (Color G') as [G'' ub]. eexists.
  split; [reflexivity|]. unfold push. proc_fields. cbn [fst snd]. auto.
Qed.

End MoreSolverFacts.

(** ** run_instance.cpp: the coloring check *)

Section Checking.

Context {Graph : Type} {ops : GraphOps Graph} {view : ColoringView Graph}.

Lemma neighbour_clash_false (graph : Graph) (c : Z) (ns : list Z) :
  RunInstance.neighbour_clash graph c ns = false
  <-> forall n, n ∈ ns -> GetColor graph n <> c.
Proof.
  induction ns as [|n ns IH]; cbn [RunInstance.neighbour_clash].
  - split; [|reflexivity]. intros _ n Hn. now apply elem_of_nil in Hn.
  - destruct (Z.eqb_spec (GetColor graph n) c) as [Heq|Hne].
    + split; [discriminate|]. intros Hall. exfalso.
      apply (Hall n); [left|exact Heq].
    + rewrite IH. split.
      * intros Hall n' Hn'. apply elem_of_cons in Hn' as [->|Hn'];
          [exact Hne|now apply Hall].
      * intros Hall n' Hn'. apply Hall. now right.
Qed.

(** X18.  [CheckColoring] accepts exactly the proper complete
    colourings: it returns [true] if and only if every vertex has a
    colour other than 0 and no neighbour of a vertex has the colour of
    that vertex.  (For a graph whose [GetNeighbours] overwrites the
    vector it is given.) *)
Theorem CheckColoring_accepts_proper_colorings (graph : Graph) :
  (forall v prev, GetNeighbours graph v prev = GetNeighbours graph v []) ->
  RunInstance.CheckColoring graph = true
  <-> forall v, v ∈ GetVertices graph ->
        GetColor graph v <> 0
        /\ forall n, n ∈ GetNeighbours graph v [] ->
             GetColor graph n <> GetColor graph v.
Proof.
  intros Hfresh. unfold RunInstance.CheckColoring.
  generalize (@nil Z) at 1. induction (GetVertices graph) as [|v vs IH];
    intros prev; cbn [RunInstance.check_vertices].
  - split; [|reflexivity]. intros _ v Hv. now apply elem_of_nil in Hv.
  - rewrite (Hfresh v prev).
    destruct (Z.eqb_spec (GetColor graph v) 0) as [Hzero|Hcol].
    + split; [discriminate|]. intros Hall. exfalso.
      now apply (proj1 (Hall v ltac:(left))).
    + destruct (RunInstance.neighbour_clash graph (GetColor graph v)
                  (GetNeighbours graph v [])) eqn:Hclash.
      * split; [discriminate|]. intros Hall. exfalso.
        apply not_false_iff_true in Hclash. apply Hclash.
        apply (proj2 (neighbour_clash_false graph _ _)).
        apply (Hall v). left.
      * pose proof (proj1 (neighbour_clash_false graph _ _) Hclash) as Hok.
        rewrite IH. split.
        -- intros Hall v' Hv'. apply elem_of_cons in Hv' as [->|Hv'];
             [split; assumption|now apply Hall].
        -- intros Hall v' Hv'. apply Hall. now right.
Qed.

End Checking.

Lemma number_of_colors_from (colors : list Z) (start : Z) :
  Forall Wire.is_ushort colors -> 0 <= start ->
  let result :=
    fold_left (fun max_color color =>
                 if max_color <? color mod 2 ^ 32 then color mod 2 ^ 32
                 else max_color) colors start in
  start <= result
  /\ (forall c, c ∈ colors -> c <= result)
  /\ (result = start \/ result ∈ colors).
Proof.
  revert start. induction colors as [|c colors IH]; intros start Hall Hs.
  - cbn. split; [lia|]. split; [|now left].
    intros c Hc. now apply elem_of_nil in Hc.
  - apply Forall_cons in Hall as (Hc & Hall). cbn [fold_left].
    assert (Hmod : c mod 2 ^ 32 = c)
      by (apply Z.mod_small; unfold Wire.is_ushort in Hc; lia).
    rewrite Hmod. unfold Wire.is_ushort in Hc.
    destruct (Z.ltb_spec start c) as [Hlt|Hge].
    + destruct (IH c Hall ltac:(lia)) as (Hle & Hmax & Hin).
      split; [lia|]. split.
      * intros c' Hc'. apply elem_of_cons in Hc' as [->|Hc'];
          [exact Hle|now apply Hmax].
      * right. destruct Hin as [->|Hin]; [left|now right].
    + destruct (IH start Hall Hs) as (Hle & Hmax & Hin).
      split; [exact Hle|]. split.
      * intros c' Hc'. apply elem_of_cons in Hc' as [->|Hc'];
          [lia|now apply Hmax].
      * destruct Hin as [Hin|Hin]; [now left|right; now right].
Qed.

(** X19.  The [number_of_colors] written to the output file is the
    largest entry of the colouring vector, 0 for an empty vector: it is
    at least every entry and, unless it is 0, it is one of them. *)
Theorem number_of_colors_is_largest (colors : list Z) :
  Forall Wire.is_ushort colors ->
  (forall c, c ∈ colors -> c <= RunInstance.number_of_colors colors)
  /\ (RunInstance.number_of_colors colors = 0
      \/ RunInstance.number_of_colors colors ∈ colors).
Proof.
  intros Hall.
  destruct (number_of_colors_from colors 0 Hall ltac:(lia)) as (_ & Hmax & Hin).
  split; [exact Hmax|exact Hin].
Qed.

Section EndToEnd.

Context {Graph : Type} {ops : GraphOps Graph} {strategies : Strategies Graph}
        {codec : HistoryCodec (GraphPtr Graph)}.
Implicit Types (s : Proc Graph) (w : Worker Graph).

(** ** A root that is already solved *)

(** X20.  STANDARD, when the colouring bound of the root is
    [expected_chi].  The seeding queues the coloured root, the first
    pass of the search thread stores the bound, posts it and the root
    branch to rank 0 on [TAG_SOLUTION_FOUND] and leaves the loop; and
    the pass of rank 0 that finds this message before the timeout
    installs the colouring of that branch in the output graph, leaves
    [_best_ub] at the bound carried by the branch whatever the 2-byte
    value held when it was first stored, sets [solution_found], raises
    [terminate_flag] and leaves its loop.  (The pass of rank 0 starts
    with [terminate_flag] down, as every pass of rank 0 does.) *)
Theorem solved_root_ends_the_run (fuel : nat) (rand : nat -> Z)
    (my_rank p expected_chi timeout_seconds : Z) (replies : list Reply)
    (root colored : Graph) (lb : Z) (tk : Tick) (t : Terminator)
    (m : SolutionMsg) (s0 : Proc Graph) (installed : Graph) :
  FindClique root = lb ->
  Color root = (colored, expected_chi) ->
  Common.well_typed (mkBranch (Some colored) lb expected_chi 1) ->
  Deserialize (Serialize (Some colored)) = Some colored ->
  terminate_flag s0 = false ->
  elapsed tk < timeout_seconds ->
  timeout_signal t = 0 ->
  solution_msg tk = Some m ->
  sol_buffer m = Common.serialize (mkBranch (Some colored) lb expected_chi 1) ->
  (forall source v, (source, v) ∈ idle_msgs tk ->
     0 <= source < Z.of_nat (length (idle_status t))) ->
  ColorInitialGraph (graph_to_color s0)
                    (mkBranch (Some colored) lb expected_chi 1)
  = Some installed ->
  (exists w' s',
     standard_iteration fuel rand my_rank p expected_chi replies Worker_init
                        (standard_seed (Proc_init root))
     = Some (Break, w', s')
     /\ best_ub s' = expected_chi
     /\ trace s'
        = [Send 0 TAG_SOLUTION_FOUND (P_ushort expected_chi);
           Send 0 TAG_SOLUTION_FOUND
                (P_int (Z.of_nat (length (sol_buffer m))));
           Send 0 TAG_SOLUTION_FOUND (P_bytes (sol_buffer m))]
     /\ queue s' = [])
  /\ exists t' s0',
       coordinator_iteration p timeout_seconds tk t s0 = Some (Break, t', s0')
       /\ graph_to_color s0' = installed
       /\ best_ub s0' = expected_chi
       /\ solution_found t' = 1
       /\ terminate_flag s0' = true.
Proof.
  intros Hlb Hcolor Hwt Hcodec Hdown Hearly Hts Hmsg Hbuf Hsrc Hinstall.
  split.
  - unfold standard_seed, Proc_init. proc_fields.
    rewrite Hcolor, Hlb. unfold push. proc_fields.
    unfold standard_iteration. proc_fields. cbn [pop_top].
    cbn [mkBranch Common.ub]. rewrite Z.eqb_refl.
    do 2 eexists. split; [reflexivity|].
    unfold declare_solution, sendBranch. proc_fields.
    cbn [mkBranch Common.ub]. rewrite Hbuf. auto.
  - unfold coordinator_iteration, coordinator_listen. rewrite Hmsg.
    destruct (Z.geb_spec (elapsed tk) timeout_seconds) as [|_]; [lia|].
    destruct (receive_solution_defined m (elapsed_solution tk) t s0
                (mkBranch (Some colored) lb expected_chi 1) installed)
      as (s2 & Hrecv & Hg2 & Hub2 & Hf2).
    { exact Hdown. }
    { rewrite Hbuf. now apply deserialize_serialize. }
    { exact Hinstall. }
    rewrite Hrecv. cbn [mbind option_bind].
    destruct (drain_idle_defined (idle_msgs tk) (set_solution_found 1 t) s2 Hsrc)
      as (t3 & s3 & Hrun & _ & Hsf3 & Hts3 & Hub3 & Hg3 & _).
    rewrite Hrun. cbn [mbind option_bind].
    cbn [set_solution_found solution_found timeout_signal] in Hsf3, Hts3.
    unfold after_broadcast.
    destruct (all_idle t3); cbn [mbind option_bind];
      cbn [set_solution_found solution_found timeout_signal];
      rewrite ?Hsf3, Hts3, Hts; cbn [Z.eqb andb mbind option_bind];
      do 2 eexists; (split; [reflexivity|]); proc_fields;
      cbn [set_solution_found solution_found mkBranch Common.ub] in *;
      repeat split; congruence.
Qed.

(** ** Timeout with no branch to keep *)

(** X21.  At timeout, when every branch rank 0 receives has an [ub]
    above its [_best_ub], and in particular when there is no other
    rank, [best_branch] is still the default-initialised branch when
    [ColorInitialGraph] dereferences its graph: the pass has no defined
    outcome. *)
Theorem timeout_without_candidate_is_undefined (p : Z)
    (buffers : Z -> list byte) (br : Z -> Branch Graph) s :
  (forall i, 1 <= i < p -> Common.deserialize (buffers i) = Some (br i)) ->
  (forall i, 1 <= i < p -> best_ub s < Common.ub (br i)) ->
  on_timeout 0 p buffers s = None
  /\ on_timeout 0 1 buffers s = None
  /\ forall timeout_seconds (tk : Tick) (t : Terminator),
       elapsed tk >= timeout_seconds ->
       solution_msg tk = None ->
       idle_msgs tk = [] ->
       coordinator_iteration 1 timeout_seconds tk t s = None.
Proof.
  intros Hbuf Habove.
  assert (Hgen : forall p' bufs (br' : Z -> Branch Graph) s1,
            (forall i, 1 <= i < p' ->
               Common.deserialize (bufs i) = Some (br' i)) ->
            (forall i, 1 <= i < p' -> best_ub s1 < Common.ub (br' i)) ->
            on_timeout 0 p' bufs s1 = None).
  { intros p' bufs br' s1 Hb Ha.
    exact (on_timeout_nothing_kept p' bufs br' s1 Hb Ha). }
  split; [now apply (Hgen p buffers br)|].
  split; [apply (Hgen 1 buffers br); intros i Hi; lia|].
  intros timeout_seconds tk t Hlate Hnomsg Hnoidle.
  unfold coordinator_iteration, coordinator_listen.
  rewrite Hnomsg, Hnoidle.
  destruct (Z.geb_spec (elapsed tk) timeout_seconds) as [_|]; [|lia].
  cbn [mbind option_bind drain_idle for_each].
  unfold after_broadcast.
  destruct (all_idle (set_timeout_signal 1 t));
    cbn [set_solution_found set_timeout_signal timeout_signal Z.eqb
         mbind option_bind];
    rewrite (Hgen 1 (timeout_buffers tk) br) by (intros i Hi; lia);
    reflexivity.
Qed.

(** ** How the BALANCED loop ends *)

Lemma balanced_break_has_flag (fuel : nat) (rand : nat -> Z)
    (my_rank p expected_chi : Z) (replies : list Reply) w s w' s' :
  balanced_iteration fuel rand my_rank p expected_chi replies w s
  = Some (Break, w', s') ->
  terminate_flag s' = true.
Proof.
  unfold balanced_iteration.
  destruct (pop_top (queue s)) as [[top rest]|].
  - destruct (Common.ub top =? expected_chi); [discriminate|].
    destruct (Common.lb top =? Common.ub top).
    + destruct (Common.ub top <? best_ub (set_queue rest s));
        [destruct (g top)|]; discriminate.
    + destruct (Common.lb top >=? best_ub (set_queue rest s));
        [discriminate|].
      destruct (g top) as [G|]; [|discriminate]. cbn [mbind option_bind].
      destruct (ChooseVertices G) as [u v].
      destruct ((u =? -1) || (v =? -1)); [discriminate|].
      destruct (Color (MergeVertices u v G)), (Color (AddEdge u v G)).
      discriminate.
  - unfold idle_path.
    destruct (steal_loop fuel rand my_rank p replies w
                (emit [Send 0 TAG_IDLE (P_int 1)] s)) as [[w1 s1]|];
      [|discriminate].
    cbn [mbind option_bind]. destruct (terminate_flag s1) eqn:Hf;
      [|discriminate].
    intros [= <- <-]. exact Hf.
Qed.

(** X22.  The BALANCED search loop never ends on its own: whenever
    thread 3 leaves it, [terminate_flag] is up.  (No pass of BALANCED
    that pops a branch ends in [break]; only the idle path does, and
    only on a raised flag.) *)
Theorem balanced_loop_ends_on_flag_only (fuel : nat) (rand : nat -> Z)
    (my_rank p expected_chi : Z) (replies : list (list Reply)) w s w' s' :
  search_loop (balanced_iteration fuel rand my_rank p expected_chi)
              replies w s = Some (w', s') ->
  terminate_flag s' = true.
Proof.
  revert w s. induction replies as [|r replies IH]; intros w s Hrun.
  - cbn [search_loop] in Hrun. destruct (terminate_flag s) eqn:Hf;
      [|discriminate]. injection Hrun as <- <-. exact Hf.
  - cbn [search_loop] in Hrun. destruct (terminate_flag s) eqn:Hf.
    + injection Hrun as <- <-. exact Hf.
    + destruct (balanced_iteration fuel rand my_rank p expected_chi r w s)
        as [[[flow w1] s1]|] eqn:Hpass; [|discriminate].
      cbn [mbind option_bind] in Hrun. destruct flow.
      * now apply (IH w1 s1).
      * injection Hrun as <- <-.
        now apply (balanced_break_has_flag _ _ _ _ _ _ _ _ _ _ Hpass).
Qed.

End EndToEnd.

(* ================================================================== *)
(** ** The further properties on the small implementation *)
(* ================================================================== *)

Section MoreRuns.

Import Toy ToyRuns.
#[local] Existing Instance greedy.

Ltac typed := vm_compute; repeat split; first [discriminate | reflexivity].

Ltac enumerate H :=
  apply list_elem_of_In in H; vm_compute in H;
  repeat (destruct H as [<- | H]); try (destruct H).

Lemma serialize_after_deserialize_witness :
  exists b,
    Common.deserialize (Common.serialize swapped_branch) = Some b
    /\ Common.serialize b = Common.serialize swapped_branch.
Proof.
  apply (serialize_after_deserialize (Common.serialize swapped_branch)).
  - vm_compute. lia.
  - vm_compute. reflexivity.
Defined.

Lemma ColorInitialGraph_reconstructs_witness :
  exists colored,
    ColorInitialGraph path3 deeper_branch
      = Some (SetFullColoring colored path3)
    /\ length colored = 4%nat
    /\ colored !! 1%nat = Some 1
    /\ colored !! 2%nat = Some 1
    /\ colored !! 3%nat = Some 2.
Proof.
  destruct (ColorInitialGraph_reconstructs path3
              (fst (greedy_color (merge 1 2 path3))) deeper_branch)
    as (colored & Hrun & Hlen & Hcol & _).
  - reflexivity.
  - intros v Hv. enumerate Hv; vm_compute; (split; [split; discriminate|eauto]).
  - intros v m Hv Hm. enumerate Hv; enumerate Hm.
    vm_compute. split; discriminate.
  - vm_compute. apply NoDup_ListNoDup.
    repeat (constructor; [cbn; intuition discriminate|]). constructor.
  - exists colored. split; [exact Hrun|]. split; [exact Hlen|].
    assert (H1 : (1 : Z) ∈ GetVertices (fst (greedy_color (merge 1 2 path3))))
      by (apply list_elem_of_In; vm_compute; auto).
    assert (H3 : (3 : Z) ∈ GetVertices (fst (greedy_color (merge 1 2 path3))))
      by (apply list_elem_of_In; vm_compute; auto).
    destruct (Hcol 1 H1) as [Ha Hb]. destruct (Hcol 3 H3) as [Hc _].
    split; [exact Ha|]. split; [|exact Hc].
    apply (Hb 2). apply list_elem_of_In. vm_compute. auto.
Defined.

Lemma branch_transfer_witness :
  trace (sendBranch sample_branch 0 TAG_WORK_STEALING busy_proc)
  = [Send 0 TAG_WORK_STEALING
       (P_int (10 + Z.of_nat (length (Serialize (g sample_branch)))));
     Send 0 TAG_WORK_STEALING (P_bytes (Common.serialize sample_branch))]
  /\ recvBranch 1 TAG_WORK_STEALING (Some (Common.serialize sample_branch))
       coordinator_proc
     = Some (sample_branch,
             emit (branch_receipt 1 TAG_WORK_STEALING
                     (Common.serialize sample_branch)) coordinator_proc).
Proof.
  destruct (branch_transfer sample_branch 0 1 TAG_WORK_STEALING busy_proc
              coordinator_proc) as (Hsend & Hrecv & _).
  - reflexivity.
  - reflexivity.
  - typed.
  - vm_compute. reflexivity.
  - split; [exact Hsend|exact Hrecv].
Defined.

Lemma depth_first_discipline_witness :
  exists m rest',
    pop_top (push child_edge (push child_merge [other_branch]))
    = Some (m, rest')
    /\ (m = child_merge \/ m = child_edge).
Proof.
  destruct (depth_first_discipline (queue busy_proc) deeper_branch
              [other_branch] child_merge child_edge)
    as (_ & _ & m & rest' & Hpop & Hm & _).
  - vm_compute. reflexivity.
  - reflexivity.
  - reflexivity.
  - exists m, rest'. split; [exact Hpop|exact Hm].
Defined.



Lemma choose_target_picks_another_rank_witness :
  exists t c,
    choose_target 3 counting_rand 0 2 0 0 = Some (t, c)
    /\ t <> 0 /\ 0 <= t < 2 /\ (0 < c <= 2)%nat
    /\ t = Z.rem (counting_rand (c - 1)%nat) 2.
Proof.
  destruct (choose_target_picks_another_rank 3 counting_rand 0 2 0 1)
    as (t & c & Hrun & Ht & Hrange & Hc & Hlast & _).
  - lia.
  - intros i. unfold counting_rand. lia.
  - lia.
  - vm_compute. discriminate.
  - exists t, c. split; [exact Hrun|]. split; [exact Ht|].
    split; [exact Hrange|]. split; [lia|exact Hlast].
Defined.

Lemma idle_reports_are_paired_witness :
  exists flow w' s',
    idle_path 1 (fun _ => 1) 0 2
      [Response 1 (Some (Common.serialize deeper_branch))]
      Worker_init coordinator_proc
    = Some (flow, w', s')
    /\ exists mid,
         Forall not_idle_report mid
         /\ best_ub s' = 3
         /\ graph_to_color s' = path3.
Proof.
  destruct (idle_path 1 (fun _ => 1) 0 2
              [Response 1 (Some (Common.serialize deeper_branch))]
              Worker_init coordinator_proc)
    as [[[flow w'] s']|] eqn:Hrun; [|vm_compute in Hrun; discriminate].
  exists flow, w', s'. split; [reflexivity|].
  destruct (idle_reports_are_paired 1 (fun _ => 1) 0 2
              [Response 1 (Some (Common.serialize deeper_branch))]
              Worker_init coordinator_proc flow w' s' Hrun)
    as (mid & Hmid & Hub & Hg & _).
  exists mid. split; [exact Hmid|]. split; [exact Hub|exact Hg].
Defined.

Lemma steal_moves_the_top_branch_witness :
  exists branch w' thief_s',
    request_work 1 (fun _ => 1) 0 2
      (Response 1 (Some (Common.serialize branch))) Worker_init
      coordinator_proc
    = Some (true, w', thief_s')
    /\ queue thief_s' = [branch]
    /\ queue busy_proc ≡ₚ branch :: queue (employer_answer 0 busy_proc).
Proof.
  destruct (steal_moves_the_top_branch 1 (fun _ => 1) 0 1 2 1%nat Worker_init
              busy_proc coordinator_proc)
    as (branch & buffer & w' & thief_s' & -> & _ & Hrun & _ & Hq & Hperm & _).
  - vm_compute. lia.
  - reflexivity.
  - reflexivity.
  - intros b Hb. enumerate Hb; (split; [typed|vm_compute; reflexivity]).
  - vm_compute. reflexivity.
  - exists branch, w', thief_s'.
    split; [exact Hrun|]. split; [exact Hq|exact Hperm].
Defined.

Lemma drain_keeps_last_report_witness :
  exists t' s',
    drain_idle [(1, 1); (1, 0)] (Terminator_init 2) coordinator_proc
    = Some (t', s')
    /\ idle_status t' !! 1%nat = Some 0
    /\ idle_status t' !! 0%nat = Some 0.
Proof.
  destruct (drain_keeps_last_report [(1, 1); (1, 0)] (Terminator_init 2)
              coordinator_proc)
    as (t' & s' & Hrun & _ & Hlast & Hother).
  - intros source v Hin.
    apply elem_of_cons in Hin as [[= -> ->]|Hin]; [vm_compute; split;
      [discriminate|reflexivity]|].
    apply elem_of_cons in Hin as [[= -> ->]|Hin]; [vm_compute; split;
      [discriminate|reflexivity]|].
    now apply elem_of_nil in Hin.
  - exists t', s'. split; [exact Hrun|]. split.
    + apply (Hlast [(1, 1)] [] 1 0); [reflexivity|].
      intros e He. now apply elem_of_nil in He.
    + rewrite (Hother 0%nat); [reflexivity|].
      intros e He.
      apply elem_of_cons in He as [->|He]; [vm_compute; discriminate|].
      apply elem_of_cons in He as [->|He]; [vm_compute; discriminate|].
      now apply elem_of_nil in He.
Defined.

Lemma coordinator_exit_raises_flag_witness :
  exists flow t' s',
    coordinator_iteration 2 60 idle_tick (Terminator_init 2) coordinator_proc
    = Some (flow, t', s')
    /\ ((flow = Break /\ terminate_flag s' = true
         /\ (solution_found t' <> 0 \/ timeout_signal t' <> 0))
        \/ (flow = Continue /\ terminate_flag s' = false
            /\ solution_found t' = 0 /\ timeout_signal t' = 0)).
Proof.
  destruct (coordinator_iteration 2 60 idle_tick (Terminator_init 2)
              coordinator_proc)
    as [[[flow t'] s']|] eqn:Hrun; [|vm_compute in Hrun; discriminate].
  exists flow, t', s'. split; [reflexivity|].
  destruct (coordinator_exit_raises_flag 2 60 idle_tick (Terminator_init 2)
              coordinator_proc flow t' s' Hrun)
    as [Hbreak|(Hflow & Hflag & Hsf & Hts & _)].
  - left. exact Hbreak.
  - right. auto.
Defined.

Lemma timeout_hand_over_witness :
  exists j s',
    1 <= j < 3
    /\ on_timeout 0 3 (fun i => Common.serialize (current_best (fleet i)))
         coordinator_proc
       = Some s'
    /\ ColorInitialGraph path3 (current_best (fleet j))
       = Some (graph_to_color s')
    /\ Common.ub (current_best (fleet j)) <= 3.
Proof.
  destruct (timeout_hand_over 3 0 (Terminator_init 3) fleet coordinator_proc)
    as (_ & j & s' & Hj & Hrun & Hcol & Hub & _).
  - reflexivity.
  - intros i Hi. assert (i = 1 \/ i = 2) as [-> | ->] by lia;
      (split; [reflexivity|]; split; [typed|vm_compute; reflexivity]).
  - exists 2. split; [lia|]. vm_compute. discriminate.
  - intros i Hi. assert (i = 1 \/ i = 2) as [-> | ->] by lia;
      vm_compute; eauto.
  - exists j, s'. auto.
Defined.

Lemma gather_alone_installs_minimum_witness :
  exists s',
    gather_round 0 [5; 2] (fun x => x) coordinator_proc = Some s'
    /\ best_ub s' <= 3
    /\ best_ub s' <= 2.
Proof.
  destruct (gather_alone_installs_minimum 0 [5; 2] coordinator_proc)
    as (s' & Hrun & Hle & Hall & _).
  - vm_compute. split; [discriminate|reflexivity].
  - exists s'. split; [exact Hrun|]. split; [exact Hle|].
    apply (Hall 1%nat 2); [vm_compute; discriminate|reflexivity].
Defined.

Lemma balanced_seed_depth_witness :
  exists s',
    balanced_seed 1 3 (Proc_init path4) = Some s'
    /\ (exists b, queue s' = [b] /\ Common.depth b = 3 /\ current_best s' = b)
    /\ best_ub s' = best_ub_initial.
Proof.
  destruct (balanced_seed_depth 1 3 (Proc_init path4))
    as (G' & s' & Hrun & Hq & Hcb & Hub & _).
  - lia.
  - exists s'. split; [exact Hrun|]. split; [|exact Hub].
    eexists. split; [exact Hq|]. split; [reflexivity|exact Hcb].
Defined.

Lemma CheckColoring_accepts_proper_colorings_witness :
  RunInstance.CheckColoring colored_path3 = true
  <-> forall v, v ∈ GetVertices colored_path3 ->
        GetColor colored_path3 v <> 0
        /\ forall n, n ∈ GetNeighbours colored_path3 v [] ->
             GetColor colored_path3 n <> GetColor colored_path3 v.
Proof.
  apply (CheckColoring_accepts_proper_colorings colored_path3).
  intros v prev. reflexivity.
Defined.

Lemma number_of_colors_is_largest_witness :
  (forall c, c ∈ [0; 1; 1; 2] ->
     c <= RunInstance.number_of_colors [0; 1; 1; 2])
  /\ (RunInstance.number_of_colors [0; 1; 1; 2] = 0
      \/ RunInstance.number_of_colors [0; 1; 1; 2] ∈ [0; 1; 1; 2]).
Proof.
  apply (number_of_colors_is_largest [0; 1; 1; 2]).
  repeat (apply Forall_cons; split; [unfold Wire.is_ushort; lia|]).
  apply Forall_nil_2.
Defined.

Lemma solved_root_ends_the_run_witness :
  (exists w' s',
     standard_iteration 0 no_rand 0 2 2 [] Worker_init
       (standard_seed (Proc_init path3))
     = Some (Break, w', s')
     /\ best_ub s' = 2 /\ queue s' = [])
  /\ exists t' s0',
       coordinator_iteration 2 61 busy_tick (Terminator_init 2)
         coordinator_proc
       = Some (Break, t', s0')
       /\ graph_to_color s0' = set_coloring [0; 1; 1; 2] path3
       /\ best_ub s0' = 2
       /\ solution_found t' = 1
       /\ terminate_flag s0' = true.
Proof.
  destruct (solved_root_ends_the_run 0 no_rand 0 2 2 61 [] path3
              colored_path3 2 busy_tick (Terminator_init 2) solution_from_0
              coordinator_proc (set_coloring [0; 1; 1; 2] path3))
    as ((w' & s' & Hrun & Hub & _ & Hq) & Hcoord).
  - vm_compute. reflexivity.
  - vm_compute. reflexivity.
  - typed.
  - vm_compute. reflexivity.
  - reflexivity.
  - vm_compute. reflexivity.
  - reflexivity.
  - reflexivity.
  - vm_compute. reflexivity.
  - intros source v Hin. now apply elem_of_nil in Hin.
  - vm_compute. reflexivity.
  - split; [|exact Hcoord]. exists w', s'. auto.
Defined.

Lemma timeout_without_candidate_is_undefined_witness :
  on_timeout 0 2 (fun _ => Common.serialize other_branch) leading_proc = None.
Proof.
  apply (timeout_without_candidate_is_undefined 2
           (fun _ => Common.serialize other_branch) (fun _ => other_branch)
           leading_proc).
  - intros i _. vm_compute. reflexivity.
  - intros i _. vm_compute. reflexivity.
Defined.

Lemma balanced_loop_ends_on_flag_only_witness :
  exists w' s',
    search_loop (balanced_iteration 1 (fun _ => 1) 0 2 2) [[Terminated]]
      Worker_init coordinator_proc
    = Some (w', s')
    /\ terminate_flag s' = true.
Proof.
  destruct (search_loop (balanced_iteration 1 (fun _ => 1) 0 2 2)
              [[Terminated]] Worker_init coordinator_proc)
    as [[w' s']|] eqn:Hrun; [|vm_compute in Hrun; discriminate].
  exists w', s'. split; [reflexivity|].
  exact (balanced_loop_ends_on_flag_only 1 (fun _ => 1) 0 2 2 [[Terminated]]
           Worker_init coordinator_proc w' s' Hrun).
Defined.

End MoreRuns.
